(** * Team progress state machine of the scavenger-hunt bot (src/Main.py)

    A shallow embedding of the handlers of [Main.py] and of the data they
    work on, followed by the properties of the progress engine, the team
    store and the scoreboard.

    Conventions of the embedding.
    - Python [int] is [Z]; [str] is [string], the UTF-8 bytes of the text.
      What [str.upper], [str.strip] and [int] do to a string is a parameter
      of the configuration; [Py.upper], [Py.strip] and [Py.int] are these
      functions on ASCII text, which is what the catalog holds.
    - A finite Python [float] is the rational number [Q] that it denotes.
      The conversion from [int] and the operations [+], [-] and [*] are
      parameters of the configuration; [f64_of_int], [f64_add], [f64_sub]
      and [f64_mul] are those of IEEE binary64, computed by the floats of
      the kernel, and the configurations of the source use them.
    - [STORE.data] is a Python [dict] from team name to [TeamState]; a dict
      keeps its keys in insertion order and [_require_team] scans it in that
      order, so it is a list of records in insertion order, each stored under
      its own [team_name].
    - A handler runs in a [World]: the store and the replies sent so far.
      An exception leaves the mutations made before it in place. *)

From Stdlib Require Import ZArith QArith Qabs Qminmax List String Ascii Bool Lia Lqa.
From Stdlib Require Import Permutation Sorted DecimalString DecimalPos.
From Stdlib Require Import PrimFloat FloatOps SpecFloat.
From Stdlib Require Uint63.
Import ListNotations.

Local Open Scope string_scope.
Local Open Scope Z_scope.

(* ================================================================= *)
(** ** Python built-ins used by the handlers *)

Module Py.

(** [len(l)] *)
Definition len {A} (l : list A) : Z := Z.of_nat (List.length l).

(** [sep.join(parts)] *)
Fixpoint join (sep : string) (parts : list string) : string :=
  match parts with
  | [] => ""
  | [p] => p
  | p :: rest => p ++ sep ++ join sep rest
  end.

(** [c.isspace()] on ASCII: tab, LF, VT, FF, CR, FS, GS, RS, US, space. *)
Definition isspace (c : ascii) : bool :=
  let n := nat_of_ascii c in
  ((9 <=? n) && (n <=? 13) || (28 <=? n) && (n <=? 32))%nat.

Fixpoint lstrip (s : string) : string :=
  match s with
  | String c r => if isspace c then lstrip r else s
  | EmptyString => EmptyString
  end.

Fixpoint rstrip (s : string) : string :=
  match s with
  | String c r =>
      match rstrip r with
      | EmptyString => if isspace c then EmptyString else String c EmptyString
      | r' => String c r'
      end
  | EmptyString => EmptyString
  end.

(** [s.strip()] on ASCII text. *)
Definition strip (s : string) : string := rstrip (lstrip s).

Definition upper_ascii (c : ascii) : ascii :=
  let n := nat_of_ascii c in
  if ((97 <=? n) && (n <=? 122))%nat then ascii_of_nat (n - 32) else c.

(** [s.upper()] on ASCII text: the letters a..z are raised, every other
    byte is kept. *)
Fixpoint upper (s : string) : string :=
  match s with
  | String c r => String (upper_ascii c) (upper r)
  | EmptyString => EmptyString
  end.

(** [a < b] on floats. *)
Definition Qltb (a b : Q) : bool :=
  match (a ?= b)%Q with Lt => true | _ => false end.

(** [max(a, b)]: the first argument is kept unless the second is
    strictly greater. *)
Definition max (a b : Q) : Q := if Qltb a b then b else a.

Definition maxZ (a b : Z) : Z := if a <? b then b else a.

(** [min(a, b)]: the first argument is kept unless the second is
    strictly smaller. *)
Definition minZ (a b : Z) : Z := if b <? a then b else a.

Inductive Exn := StopIteration | IndexError | ValueError | RuntimeError.

(** [l[i]], negative indices counting from the end. *)
Definition index {A} (l : list A) (i : Z) : Exn + A :=
  let j := if i <? 0 then i + len l else i in
  if (j <? 0) || (len l <=? j) then inl IndexError
  else match nth_error l (Z.to_nat j) with
       | Some x => inr x
       | None => inl IndexError
       end.

(** The ASCII digits. *)
Definition isdigit (c : ascii) : bool :=
  let n := nat_of_ascii c in ((48 <=? n) && (n <=? 57))%nat.

(** Removes the underscores of a numeric literal; [None] unless each
    underscore stands between two digits. *)
Fixpoint digits_of (prev_digit : bool) (s : string) : option string :=
  match s with
  | EmptyString => if prev_digit then Some EmptyString else None
  | String c r =>
      if (c =? "_")%char then
        if prev_digit then digits_of false r else None
      else if isdigit c then option_map (String c) (digits_of true r)
      else None
  end.

Definition nat_literal (s : string) : Exn + Z :=
  match digits_of false s with
  | Some d =>
      match NilZero.uint_of_string d with
      | Some u => inr (Z.of_uint u)
      | None => inl ValueError
      end
  | None => inl ValueError
  end.

(** [int(s)] for a decimal literal in ASCII: surrounding white space, an
    optional sign, digits 0..9 with single underscores between them. *)
Definition int (s : string) : Exn + Z :=
  match strip s with
  | String "-" r =>
      match nat_literal r with inr n => inr (- n) | inl e => inl e end
  | String "+" r => nat_literal r
  | r => nat_literal r
  end.

End Py.

(* ================================================================= *)
(** ** Data model *)

(** The ["geofence"] entry of a question. *)
Record Geofence := mkGeofence {
  g_lat : Q;
  g_lon : Q;
  radius_m : Q
}.

(** One entry of [QUESTIONS]. *)
Record Question := mkQuestion {
  q_id : Z;
  title : string;
  prompt : string;
  answer_code : string;
  hints : list string;
  geofence : option Geofence
}.

(** [TeamState.last_location]: [{lat, lon, ts}]. *)
Record Location := mkLocation {
  lat : Q;
  lon : Q;
  ts : Z
}.

(** One entry of [TeamState.history]: [{q, correct, points, attempts, hints}]. *)
Record HistoryEntry := mkEntry {
  h_q : Z;
  h_correct : bool;
  h_points : Q;
  h_attempts : Z;
  h_hints : Z
}.

(** [class TeamState] *)
Record TeamState := mkTeam {
  team_name : string;
  user_id : Z;
  current_q : Z;
  score : Q;
  attempts_left : Z;
  hints_used_current_q : Z;
  history : list HistoryEntry;
  last_location : option Location
}.

(** The module-level constants, and what the interpreter and its libraries
    compute for the module.  The constants read from the environment are
    free; [QUESTIONS_literal] is the list literal that the padding loop
    extends.  The library functions are parameters, so that what is proved
    holds for the functions of the interpreter, whatever they do outside
    ASCII text and exact arithmetic: [haversine_m lat lon glat glon] is the
    distance [d] that [within_geofence] computes with the math library;
    [str_upper], [str_strip] and [to_int] are [str.upper], [str.strip] and
    [int] on strings; [float_of_int], [fadd], [fsub] and [fmul] are the
    conversion of an [int] and the operations [+], [-] and [*] of [float],
    on the finite numbers of the format. *)
Record Config := mkConfig {
  ADMIN_IDS : list Z;
  ATTEMPTS_PER_Q : Z;
  HINT_PENALTY : Q;
  USE_GEOFENCE : bool;
  QUESTIONS_literal : list Question;
  haversine_m : Q -> Q -> Q -> Q -> Q;
  str_upper : string -> string;
  str_strip : string -> string;
  to_int : string -> Py.Exn + Z;
  float_of_int : Z -> Q;
  fadd : Q -> Q -> Q;
  fsub : Q -> Q -> Q;
  fmul : Q -> Q -> Q
}.

(** [str(i)] inside the f-strings of the padding loop. *)
Definition str_of_Z (i : Z) : string := NilZero.string_of_int (Z.to_int i).

(** The question that the padding loop appends as number [i]. *)
Definition spot (i : Z) : Question :=
  {| q_id := i;
     title := "Spot #" ++ str_of_Z i;
     prompt := "Go to location #" ++ str_of_Z i ++ " and submit the on-site code.";
     answer_code := "CODE" ++ str_of_Z i;
     hints := ["Check the signboard."; "Try the ticket counter area."];
     geofence := None |}.

(** [while len(QUESTIONS) < 10: ... QUESTIONS.append(...)]; every turn adds
    one question, so ten turns are enough from any start. *)
Fixpoint pad (fuel : nat) (qs : list Question) : list Question :=
  match fuel with
  | O => qs
  | S fuel' =>
      if Py.len qs <? 10 then pad fuel' (qs ++ [spot (Py.len qs + 1)]) else qs
  end.

Definition QUESTIONS (cfg : Config) : list Question :=
  pad 10 (QUESTIONS_literal cfg).

(** The store: [STORE.data.values()] in insertion order. *)
Definition Store := list TeamState.

(** [TeamState(team_name=team_name, user_id=user_id)] *)
Definition new_team (cfg : Config) (name : string) (uid : Z) : TeamState :=
  {| team_name := name;
     user_id := uid;
     current_q := 1;
     score := 0;
     attempts_left := ATTEMPTS_PER_Q cfg;
     hints_used_current_q := 0;
     history := [];
     last_location := None |}.

(** What a handler sends back; each constructor is one message of the
    source, with the values it interpolates. *)
Inductive Reply :=
| Welcome
| UsageRegister
| TeamNameTaken                      (* "This team name is taken. Choose another." *)
| TeamRegistered (name : string)
| QuestionPrompt (q : Question) (attempts : Z)
| LocationReceived
| UsageAnswer
| NotAtLocation                      (* "You do not appear to be at the location yet. ..." *)
| Finished (total : Q)
| Correct (points total : Q)
| OutOfAttempts                      (* "Out of attempts. Moving to next question." *)
| GameOver (total : Q)
| Incorrect (attempts : Z)
| NoMoreHints                        (* "No more hints for this question." *)
| HintText (number : Z) (text : string)
| Status (team : TeamState)
| ShareLocation
| Scoreboard (teams : list TeamState)
| AdminMessage (chat_id : Z) (msg : string)
| BroadcastSent
| UsageWhere
| TeamNotFound
| Where (team : TeamState)
| UsageForce
| Forced (name : string) (q : Z).

Record World := mkWorld {
  STORE : Store;
  sent : list Reply
}.

(* ================================================================= *)
(** ** The handler monad: state, replies and exceptions *)

Definition Handler (A : Type) : Type := World -> World * (Py.Exn + A).

Definition ret {A} (a : A) : Handler A := fun w => (w, inr a).

Definition bind {A B} (m : Handler A) (k : A -> Handler B) : Handler B :=
  fun w =>
    match m w with
    | (w', inr a) => k a w'
    | (w', inl e) => (w', inl e)
    end.

(** The boundary of an [async def]: a [StopIteration] that would leave the
    coroutine leaves it as [RuntimeError]; whatever the body did before
    stays done. *)
Definition coroutine {A} (body : Handler A) : Handler A :=
  fun w =>
    match body w with
    | (w', inl Py.StopIteration) => (w', inl Py.RuntimeError)
    | r => r
    end.

(** A pure computation that may raise. *)
Definition lift {A} (r : Py.Exn + A) : Handler A := fun w => (w, r).

Declare Scope handler_scope.
Delimit Scope handler_scope with handler.
Notation "x <- m ;; k" := (bind m (fun x => k))
  (at level 61, m at next level, right associativity) : handler_scope.
Notation "m ;; k" := (bind m (fun _ => k))
  (at level 61, right associativity) : handler_scope.
Local Open Scope handler_scope.

(** [await update.message.reply_text(...)] *)
Definition reply_text (r : Reply) : Handler unit :=
  fun w => ({| STORE := STORE w; sent := sent w ++ [r] |}, inr tt).

(* ================================================================= *)
(** ** The store *)

(** [Store.get]: [self.data.get(team)] *)
Definition get (team : string) (data : Store) : option TeamState :=
  find (fun t => (team_name t =? team)%string) data.

(** [self.data[team.team_name] = team]: an existing key keeps its place, a
    new key goes last. *)
Fixpoint dict_set (team : TeamState) (data : Store) : Store :=
  match data with
  | [] => [team]
  | t :: rest =>
      if (team_name t =? team_name team)%string then team :: rest
      else t :: dict_set team rest
  end.

(** [Store.upsert]; [save] rewrites the state file from [data] and leaves
    [data] as it is. *)
Definition upsert (team : TeamState) : Handler unit :=
  fun w => ({| STORE := dict_set team (STORE w); sent := sent w |}, inr tt).

(** The loop of [_require_team]: the first record of the owner, in
    insertion order. *)
Definition owned_by (uid : Z) (data : Store) : option TeamState :=
  find (fun t => user_id t =? uid) data.

(** [_require_team]; the "Please /register" coroutine is created and never
    awaited, so nothing is sent when the loop finds no record. *)
Definition _require_team (uid : Z) : Handler (option TeamState) :=
  fun w => (w, inr (owned_by uid (STORE w))).

(** The names under which the store holds records: the keys of the dict. *)
Definition names (data : Store) : list string := map team_name data.

Fixpoint distinct (l : list string) : bool :=
  match l with
  | [] => true
  | x :: r => negb (existsb (String.eqb x) r) && distinct r
  end.

(** A store is a dict: no key occurs twice. *)
Definition is_dict (data : Store) : bool := distinct (names data).

(* ================================================================= *)
(** ** Helpers and handlers *)

Section Handlers.

Variable cfg : Config.

(** [is_admin] *)
Definition is_admin (uid : Z) : bool := existsb (Z.eqb uid) (ADMIN_IDS cfg).

(** [get_q]: [next(q for q in QUESTIONS if q["id"] == i)]; with no such
    question [next] raises [StopIteration], which no handler catches. *)
Definition get_q (i : Z) : Py.Exn + Question :=
  match find (fun q => q_id q =? i) (QUESTIONS cfg) with
  | Some q => inr q
  | None => inl Py.StopIteration
  end.

(** [within_geofence] *)
Definition within_geofence (q : Question) (lat lon : Q) : bool :=
  match USE_GEOFENCE cfg, geofence q with
  | true, Some g =>
      Qle_bool (haversine_m cfg lat lon (g_lat g) (g_lon g)) (radius_m g)
  | _, _ => true
  end.

(** [start] *)
Definition start : Handler unit := reply_text Welcome.

(** [register] *)
Definition register (uid : Z) (args : list string) : Handler unit :=
  match args with
  | [] => reply_text UsageRegister
  | _ =>
      let team_name := str_strip cfg (Py.join " " args) in
      fun w =>
        match get team_name (STORE w) with
        | Some _ => reply_text TeamNameTaken w
        | None =>
            let team := new_team cfg team_name uid in
            (upsert team ;;
             reply_text (TeamRegistered team_name)) w
        end
  end.

(** [begin] *)
Definition begin (uid : Z) : Handler unit :=
  team <- _require_team uid ;;
  match team with
  | None => ret tt
  | Some team =>
      q <- lift (get_q (current_q team)) ;;
      reply_text (QuestionPrompt q (attempts_left team))
  end.

(** The record after [team.last_location = {...}] (line 215). *)
Definition located (team : TeamState) (loc : Location) : TeamState :=
  {| team_name := team_name team;
     user_id := user_id team;
     current_q := current_q team;
     score := score team;
     attempts_left := attempts_left team;
     hints_used_current_q := hints_used_current_q team;
     history := history team;
     last_location := Some loc |}.

(** [on_location]; [now] is [int(time.time())]. *)
Definition on_location (uid : Z) (lat lon : Q) (now : Z) : Handler unit :=
  team <- _require_team uid ;;
  match team with
  | None => ret tt
  | Some team =>
      upsert (located team {| lat := lat; lon := lon; ts := now |}) ;;
      reply_text LocationReceived
  end.

(** The award of a correct answer:
    [max(0.0, 1.0 - team.hints_used_current_q * HINT_PENALTY)] *)
Definition points_for (hints_used : Z) : Q :=
  Py.max 0 (fsub cfg 1 (fmul cfg (float_of_int cfg hints_used) (HINT_PENALTY cfg))).

(** The guard of [answer] on the recorded location:
    [team.last_location and not within_geofence(q, lat, lon)] *)
Definition out_of_range (team : TeamState) (q : Question) : bool :=
  match last_location team with
  | Some loc => negb (within_geofence q (lat loc) (lon loc))
  | None => false
  end.

(** The record after a correct answer (lines 237-248). *)
Definition solved (team : TeamState) : TeamState :=
  let points := points_for (hints_used_current_q team) in
  {| team_name := team_name team;
     user_id := user_id team;
     current_q := current_q team + 1;
     score := fadd cfg (score team) points;
     attempts_left := ATTEMPTS_PER_Q cfg;
     hints_used_current_q := 0;
     history := history team ++
       [{| h_q := current_q team;
           h_correct := true;
           h_points := points;
           h_attempts := ATTEMPTS_PER_Q cfg - attempts_left team + 1;
           h_hints := hints_used_current_q team |}];
     last_location := last_location team |}.

(** The record after [team.attempts_left -= 1] (line 258). *)
Definition missed (team : TeamState) : TeamState :=
  {| team_name := team_name team;
     user_id := user_id team;
     current_q := current_q team;
     score := score team;
     attempts_left := attempts_left team - 1;
     hints_used_current_q := hints_used_current_q team;
     history := history team;
     last_location := last_location team |}.

(** The record after the attempts ran out (lines 262-271). *)
Definition exhausted (team : TeamState) : TeamState :=
  {| team_name := team_name team;
     user_id := user_id team;
     current_q := current_q team + 1;
     score := score team;
     attempts_left := ATTEMPTS_PER_Q cfg;
     hints_used_current_q := 0;
     history := history team ++
       [{| h_q := current_q team;
           h_correct := false;
           h_points := 0;
           h_attempts := ATTEMPTS_PER_Q cfg;
           h_hints := hints_used_current_q team |}];
     last_location := last_location team |}.

(** [answer] *)
Definition answer (uid : Z) (args : list string) : Handler unit :=
  team <- _require_team uid ;;
  match team with
  | None => ret tt
  | Some team =>
      match args with
      | [] => reply_text UsageAnswer
      | _ =>
          let code := str_upper cfg (str_strip cfg (Py.join " " args)) in
          q <- lift (get_q (current_q team)) ;;
          if out_of_range team q then reply_text NotAtLocation
          else if (code =? str_upper cfg (answer_code q))%string then
            let points := points_for (hints_used_current_q team) in
            let team := solved team in
            upsert team ;;
            if Py.len (QUESTIONS cfg) <? current_q team then
              reply_text (Finished (score team))
            else
              reply_text (Correct points (score team)) ;;
              begin uid
          else
            let team := missed team in
            upsert team ;;
            if attempts_left team <=? 0 then
              let team := exhausted team in
              upsert team ;;
              reply_text OutOfAttempts ;;
              if current_q team <=? Py.len (QUESTIONS cfg) then begin uid
              else reply_text (GameOver (score team))
            else reply_text (Incorrect (attempts_left team))
      end
  end.

(** The record after [team.hints_used_current_q += 1] (line 291). *)
Definition hinted (team : TeamState) : TeamState :=
  {| team_name := team_name team;
     user_id := user_id team;
     current_q := current_q team;
     score := score team;
     attempts_left := attempts_left team;
     hints_used_current_q := hints_used_current_q team + 1;
     history := history team;
     last_location := last_location team |}.

(** [hint]; [q['hints'][idx]] is evaluated for the reply, after the
    record was updated and saved. *)
Definition hint (uid : Z) : Handler unit :=
  team <- _require_team uid ;;
  match team with
  | None => ret tt
  | Some team =>
      q <- lift (get_q (current_q team)) ;;
      let idx := hints_used_current_q team in
      if Py.len (hints q) <=? idx then reply_text NoMoreHints
      else
        upsert (hinted team) ;;
        text <- lift (Py.index (hints q) idx) ;;
        reply_text (HintText (idx + 1) text)
  end.

(** [status_cmd] *)
Definition status_cmd (uid : Z) : Handler unit :=
  team <- _require_team uid ;;
  match team with
  | None => ret tt
  | Some team => reply_text (Status team)
  end.

(** [location_request] *)
Definition location_request : Handler unit := reply_text ShareLocation.

(** The sort key [(-t.score, t.current_q)] and the tuple comparison
    [key(a) < key(b)]: the first components decide unless they are equal. *)
Definition key_lt (a b : TeamState) : bool :=
  if Qeq_bool (- score a) (- score b) then current_q a <? current_q b
  else Py.Qltb (- score a) (- score b).

(** [sorted(..., key=...)] is stable: a record goes in front of the first
    record of the sorted rest that is not strictly smaller. *)
Fixpoint insert (t : TeamState) (l : list TeamState) : list TeamState :=
  match l with
  | [] => [t]
  | x :: r => if key_lt x t then x :: insert t r else t :: x :: r
  end.

Fixpoint sorted (l : list TeamState) : list TeamState :=
  match l with
  | [] => []
  | t :: r => insert t (sorted r)
  end.

(** [scoreboard] *)
Definition scoreboard : Handler unit :=
  fun w => reply_text (Scoreboard (sorted (STORE w))) w.

(** [broadcast]; a failed [send_message] is caught and printed. *)
Definition broadcast (uid : Z) (args : list string) : Handler unit :=
  if negb (is_admin uid) then ret tt
  else
    let msg := match args with [] => "(empty)" | _ => Py.join " " args end in
    fun w =>
      reply_text BroadcastSent
        {| STORE := STORE w;
           sent := sent w ++ map (fun t => AdminMessage (user_id t) msg) (STORE w) |}.

(** [where] *)
Definition where_ (uid : Z) (args : list string) : Handler unit :=
  if negb (is_admin uid) then ret tt
  else
    match args with
    | [] => reply_text UsageWhere
    | _ =>
        fun w =>
          match get (Py.join " " args) (STORE w) with
          | None => reply_text TeamNotFound w
          | Some team => reply_text (Where team) w
          end
    end.

(** The record after the three assignments of [force] (lines 366-368). *)
Definition forced (team : TeamState) (qn : Z) : TeamState :=
  {| team_name := team_name team;
     user_id := user_id team;
     current_q := Py.maxZ 1 (Py.minZ qn (Py.len (QUESTIONS cfg)));
     score := score team;
     attempts_left := ATTEMPTS_PER_Q cfg;
     hints_used_current_q := 0;
     history := history team;
     last_location := last_location team |}.

(** [force] *)
Definition force (uid : Z) (args : list string) : Handler unit :=
  if negb (is_admin uid) then ret tt
  else
    match args with
    | team_name :: a1 :: _ =>
        qn <- lift (to_int cfg a1) ;;
        fun w =>
          match get team_name (STORE w) with
          | None => reply_text TeamNotFound w
          | Some team =>
              let team := forced team qn in
              (upsert team ;;
               reply_text (Forced team_name (current_q team))) w
          end
    | _ => reply_text UsageForce
    end.

End Handlers.

(* ================================================================= *)
(** ** Updates and runs *)

(** What the transport delivers: a command with the sender's id and the
    arguments after the command word, or a location message. *)
Inductive Update :=
| CmdStart (uid : Z)
| CmdRegister (uid : Z) (args : list string)
| CmdBegin (uid : Z)
| CmdAnswer (uid : Z) (args : list string)
| CmdHint (uid : Z)
| CmdStatus (uid : Z)
| CmdLocation (uid : Z)
| CmdScoreboard (uid : Z)
| CmdBroadcast (uid : Z) (args : list string)
| CmdWhere (uid : Z) (args : list string)
| CmdForce (uid : Z) (args : list string)
| MsgLocation (uid : Z) (lat lon : Q) (now : Z).

(** The handler table of [main]; the application awaits the coroutine of
    the handler. *)
Definition dispatch (cfg : Config) (u : Update) : Handler unit :=
  coroutine
    match u with
    | CmdStart _ => start
    | CmdRegister uid args => register cfg uid args
    | CmdBegin uid => begin cfg uid
    | CmdAnswer uid args => answer cfg uid args
    | CmdHint uid => hint cfg uid
    | CmdStatus uid => status_cmd uid
    | CmdLocation _ => location_request
    | CmdScoreboard _ => scoreboard
    | CmdBroadcast uid args => broadcast cfg uid args
    | CmdWhere uid args => where_ cfg uid args
    | CmdForce uid args => force cfg uid args
    | MsgLocation uid lat lon now => on_location uid lat lon now
    end.

(** The store after one update; an exception inside the handler is logged by
    the application and the store stays as the handler left it. *)
Definition step (cfg : Config) (data : Store) (u : Update) : Store :=
  STORE (fst (dispatch cfg u {| STORE := data; sent := [] |})).

(** The store after a sequence of updates. *)
Definition run (cfg : Config) (us : list Update) (data : Store) : Store :=
  fold_left (step cfg) us data.

Definition is_force (u : Update) : bool :=
  match u with CmdForce _ _ => true | _ => false end.

(** The updates with which [force] rewrites the record called [name]: sent
    by an administrator, with that name and a number that [int] reads. *)
Definition forces (cfg : Config) (name : string) (u : Update) : bool :=
  match u with
  | CmdForce uid (n :: a1 :: _) =>
      is_admin cfg uid && (n =? name)%string
      && match to_int cfg a1 with inr _ => true | inl _ => false end
  | _ => false
  end.

(** Stores that a run from the empty store produces. *)
Definition reachable (cfg : Config) (data : Store) : Prop :=
  exists us, run cfg us [] = data.

(** Stores produced without the administrative [force]. *)
Definition reachable_unforced (cfg : Config) (data : Store) : Prop :=
  exists us, forallb (fun u => negb (is_force u)) us = true /\ run cfg us [] = data.

(* ================================================================= *)
(** ** The configuration of the source *)

(** A stand-in for the haversine distance in the examples: metres per
    degree times the taxicab distance in degrees. *)
Definition demo_distance (lat lon glat glon : Q) : Q :=
  (111195 * (Qabs (lat - glat) + Qabs (lon - glon)))%Q.

(** The one question of the list literal. *)
Definition old_supreme_court : Question :=
  {| q_id := 1;
     title := "Civic District — Old Supreme Court";
     prompt := "Find the bronze statue of X. Submit the 6-letter password under the emblem.";
     answer_code := "MERLION";
     hints := [ "It is near the steps facing the Padang.";
                "Look beneath the coat of arms plate." ];
     geofence := Some {| g_lat := 129027 # 100000;
                         g_lon := 1038515 # 10000;
                         radius_m := 120 |} |}.

(** *** Binary64 on rational numbers

    A finite double is a rational number.  [Q_of_float] gives the value of a
    finite double, [float_of_Q] the double of a rational that is one, and
    the operations of the format are those of the kernel's floats between
    the two.  Infinite results and NaN are outside these numbers. *)

Definition float_of_Z (z : Z) : float :=
  SF2Prim (binary_normalize prec emax z 0 false).

Definition Q_of_float (f : float) : Q :=
  match Prim2SF f with
  | S754_finite s m e =>
      let n := if s then Z.neg m else Z.pos m in
      if 0 <=? e then inject_Z (n * 2 ^ e)
      else Qred (n # (2 ^ Z.to_pos (- e))%positive)
  | _ => 0%Q
  end.

Definition float_of_Q (q : Q) : float :=
  let r := Qred q in
  let k := Z.log2 (Z.pos (Qden r)) in
  if Z.pos (Qden r) =? 2 ^ k then Z.ldexp (float_of_Z (Qnum r)) (- k)
  else (float_of_Z (Qnum r) / float_of_Z (Z.pos (Qden r)))%float.

Definition f64_of_int (z : Z) : Q := Q_of_float (float_of_Z z).

Definition f64_add (a b : Q) : Q := Q_of_float (float_of_Q a + float_of_Q b)%float.

Definition f64_sub (a b : Q) : Q := Q_of_float (float_of_Q a - float_of_Q b)%float.

Definition f64_mul (a b : Q) : Q := Q_of_float (float_of_Q a * float_of_Q b)%float.

(** The literal of the source and the defaults of the environment, with the
    ASCII functions above for the strings and binary64 for the numbers. *)
Definition default_config : Config :=
  {| ADMIN_IDS := [];
     ATTEMPTS_PER_Q := 3;
     HINT_PENALTY := 1 # 2;
     USE_GEOFENCE := false;
     QUESTIONS_literal := [old_supreme_court];
     haversine_m := demo_distance;
     str_upper := Py.upper;
     str_strip := Py.strip;
     to_int := Py.int;
     float_of_int := f64_of_int;
     fadd := f64_add;
     fsub := f64_sub;
     fmul := f64_mul |}.

(** The same game with an administrator (id 900) and the geofence on. *)
Definition fenced_config : Config :=
  {| ADMIN_IDS := [900];
     ATTEMPTS_PER_Q := ATTEMPTS_PER_Q default_config;
     HINT_PENALTY := HINT_PENALTY default_config;
     USE_GEOFENCE := true;
     QUESTIONS_literal := QUESTIONS_literal default_config;
     haversine_m := demo_distance;
     str_upper := Py.upper;
     str_strip := Py.strip;
     to_int := Py.int;
     float_of_int := f64_of_int;
     fadd := f64_add;
     fsub := f64_sub;
     fmul := f64_mul |}.

(** The game with a tenth of a point per hint: the double nearest to 0.1. *)
Definition tenth_config : Config :=
  {| ADMIN_IDS := [900];
     ATTEMPTS_PER_Q := 3;
     HINT_PENALTY := 3602879701896397 # 36028797018963968;
     USE_GEOFENCE := false;
     QUESTIONS_literal := [old_supreme_court];
     haversine_m := demo_distance;
     str_upper := Py.upper;
     str_strip := Py.strip;
     to_int := Py.int;
     float_of_int := f64_of_int;
     fadd := f64_add;
     fsub := f64_sub;
     fmul := f64_mul |}.

(** The configurations whose numbers are CPython's: binary64. *)
Definition binary64 (cfg : Config) : Prop :=
  float_of_int cfg = f64_of_int /\ fadd cfg = f64_add
  /\ fsub cfg = f64_sub /\ fmul cfg = f64_mul.

(** Sample data.  Alpha is on question 1 with one attempt left and two
    hints taken.  Omega registered and used up the attempts of all ten
    questions. *)
Definition alpha : TeamState :=
  {| team_name := "Alpha"; user_id := 7; current_q := 1; score := 0;
     attempts_left := 1; hints_used_current_q := 2; history := [];
     last_location := None |}.

(** Beta is on question 1 and last reported the point (0, 0). *)
Definition beta : TeamState :=
  {| team_name := "Beta"; user_id := 9; current_q := 1; score := 0;
     attempts_left := 3; hints_used_current_q := 0; history := [];
     last_location := Some {| lat := 0; lon := 0; ts := 1700000000 |} |}.

Definition finished_store : Store :=
  run default_config
    (CmdRegister 8 ["Omega"] :: repeat (CmdAnswer 8 ["x"]) 30) [].

Definition omega : TeamState :=
  nth 0 finished_store (new_team default_config "Omega" 8).

(* ================================================================= *)
(** ** Predicates of the statements *)

(** The ids of a list of questions count up from [k]. *)
Fixpoint numbered_from (k : Z) (qs : list Question) : bool :=
  match qs with
  | [] => true
  | q :: r => (q_id q =? k) && numbered_from (k + 1) r
  end.

(** The catalog is numbered 1, 2, ... as the source numbers it. *)
Definition numbered (cfg : Config) : bool := numbered_from 1 (QUESTIONS cfg).

(** Strings of ASCII digits. *)
Fixpoint all_digits (s : string) : bool :=
  match s with
  | EmptyString => true
  | String c r => Py.isdigit c && all_digits r
  end.

(** The comparison of [answer]: the submitted words, joined, stripped and
    upper-cased, against the upper-cased answer code of the question. *)
Definition matches (cfg : Config) (q : Question) (args : list string) : bool :=
  (str_upper cfg (str_strip cfg (Py.join " " args))
   =? str_upper cfg (answer_code q))%string.

(** What the commands of an owner do to the owner's record. *)
Inductive change (cfg : Config) : TeamState -> TeamState -> Prop :=
| change_solved t : change cfg t (solved cfg t)
| change_missed t : change cfg t (missed t)
| change_exhausted t : change cfg t (exhausted cfg t)
| change_hinted t : change cfg t (hinted t)
| change_located t loc : change cfg t (located t loc).


(** The order of the scoreboard: [a] may stand before [b] when its score is
    higher, or when the scores are equal and its index is not higher. *)
Definition ranks_no_later (a b : TeamState) : Prop :=
  (score b < score a)%Q \/ ((score a == score b)%Q /\ current_q a <= current_q b).

(** Replacing the record [t] of a dict by [t'] of the same name touches
    that record alone. *)
Definition relabel (t t' : TeamState) (x : TeamState) : TeamState :=
  if (team_name x =? team_name t)%string then t' else x.

(** Who sent an update. *)
Definition sender (u : Update) : Z :=
  match u with
  | CmdStart uid | CmdBegin uid | CmdHint uid | CmdStatus uid
  | CmdLocation uid | CmdScoreboard uid => uid
  | CmdRegister uid _ | CmdAnswer uid _ | CmdBroadcast uid _
  | CmdWhere uid _ | CmdForce uid _ => uid
  | MsgLocation uid _ _ _ => uid
  end.

(** The world after a sequence of updates, replies included; a handler that
    raises leaves the world as it was when the exception left it. *)
Definition play (cfg : Config) (us : list Update) (w : World) : World :=
  fold_left (fun w u => fst (dispatch cfg u w)) us w.

(** The changes of a record by its owner's commands, each with the test
    under which the handler makes it. *)
Inductive transition (cfg : Config) : TeamState -> TeamState -> Prop :=
| tr_solved t q :
    get_q cfg (current_q t) = inr q -> transition cfg t (solved cfg t)
| tr_missed t q :
    get_q cfg (current_q t) = inr q -> 0 < attempts_left t - 1 ->
    transition cfg t (missed t)
| tr_exhausted t q :
    get_q cfg (current_q t) = inr q -> attempts_left t - 1 <= 0 ->
    transition cfg t (exhausted cfg t)
| tr_hinted t q :
    get_q cfg (current_q t) = inr q ->
    hints_used_current_q t < Py.len (hints q) ->
    transition cfg t (hinted t)
| tr_located t loc : transition cfg t (located t loc).



(** The numbers [from + 1, ..., from + n] of the questions that the padding
    loop appends. *)
Definition numbers_after (from : Z) (n : nat) : list Z :=
  map (fun k => from + Z.of_nat k) (seq 1 n).

(** Two records with the same sort key. *)
Definition tied (a b : TeamState) : bool :=
  Qeq_bool (score a) (score b) && (current_q a =? current_q b).

(** The replies to [k] requests for a hint, the first of which asks for the
    hint at position [from]. *)
Definition hint_replies (q : Question) (from k : nat) : list Reply :=
  map (fun i => HintText (Z.of_nat i + 1) (nth i (hints q) "")) (seq from k).

(* ================================================================= *)
(** * Properties *)

(** ** Runs of the model on the source's configuration *)

Example join_two : Py.join " " ["Red"; "Team"] = "Red Team".
Proof. reflexivity. Qed.

Example strip_upper : Py.upper (Py.strip "  code7 ") = "CODE7".
Proof. reflexivity. Qed.

Example max_keeps_first : Py.max 0 (-(1 # 2)) = 0%Q /\ Py.max 0 (1 # 2) = (1 # 2)%Q.
Proof. split; reflexivity. Qed.

Example int_examples :
  Py.int "12" = inr 12 /\ Py.int "-3" = inr (-3) /\ Py.int "+1_0" = inr 10
  /\ Py.int "x" = inl Py.ValueError /\ Py.int "" = inl Py.ValueError
  /\ Py.int "1__0" = inl Py.ValueError.
Proof. repeat split; reflexivity. Qed.

Example index_examples :
  Py.index ["a"; "b"] 1 = inr "b" /\ Py.index ["a"; "b"] (-1) = inr "b"
  /\ Py.index ["a"; "b"] 2 = inl Py.IndexError.
Proof. repeat split; reflexivity. Qed.

Example catalog_ids :
  map q_id (QUESTIONS default_config) = [1; 2; 3; 4; 5; 6; 7; 8; 9; 10].
Proof. reflexivity. Qed.

Example catalog_codes :
  map answer_code (QUESTIONS default_config)
  = ["MERLION"; "CODE2"; "CODE3"; "CODE4"; "CODE5";
     "CODE6"; "CODE7"; "CODE8"; "CODE9"; "CODE10"].
Proof. reflexivity. Qed.

(** The scenario of the specification: Alpha registers, misses twice, takes
    one hint and then answers correctly. *)
Example alpha_scenario :
  run default_config
    [ CmdRegister 7 ["Alpha"];
      CmdAnswer 7 ["nope"]; CmdAnswer 7 ["nope"];
      CmdHint 7;
      CmdAnswer 7 ["merlion"] ] []
  = [ {| team_name := "Alpha"; user_id := 7; current_q := 2;
         score := 1 # 2;
         attempts_left := 3; hints_used_current_q := 0;
         history := [ {| h_q := 1; h_correct := true;
                         h_points := 1 # 2;
                         h_attempts := 3; h_hints := 1 |} ];
         last_location := None |} ].
Proof. vm_compute. reflexivity. Qed.

(* ================================================================= *)
(** ** The catalog *)

Lemma numbered_from_app k qs qs' :
  numbered_from k (qs ++ qs')
  = numbered_from k qs && numbered_from (k + Py.len qs) qs'.
Proof.
  revert k; induction qs as [|q r IH]; intro k; simpl.
  - unfold Py.len; simpl. now rewrite Z.add_0_r.
  - rewrite IH, <- andb_assoc. do 3 f_equal.
    unfold Py.len; simpl List.length. lia.
Qed.

Lemma len_app {A} (l l' : list A) : Py.len (l ++ l') = Py.len l + Py.len l'.
Proof. unfold Py.len. rewrite length_app. lia. Qed.

Lemma len_nonneg {A} (l : list A) : 0 <= Py.len l.
Proof. unfold Py.len. lia. Qed.

Lemma pad_numbered fuel qs :
  numbered_from 1 qs = true -> numbered_from 1 (pad fuel qs) = true.
Proof.
  revert qs; induction fuel as [|n IH]; intros qs H; simpl; auto.
  destruct (Py.len qs <? 10); auto.
  apply IH. rewrite numbered_from_app, H. cbn [numbered_from andb spot q_id].
  rewrite (Z.add_comm 1), Z.eqb_refl. reflexivity.
Qed.

Lemma pad_length fuel qs :
  10 - Z.of_nat fuel <= Py.len qs -> 10 <= Py.len (pad fuel qs).
Proof.
  revert qs; induction fuel as [|n IH]; intros qs H; simpl.
  - simpl in H. lia.
  - destruct (Z.ltb_spec (Py.len qs) 10) as [Hlt|Hge]; [|lia].
    apply IH. rewrite len_app. change (Py.len [spot (Py.len qs + 1)]) with 1. lia.
Qed.

(** The padding loop leaves at least ten questions. *)
Lemma QUESTIONS_at_least_10 cfg : 10 <= Py.len (QUESTIONS cfg).
Proof. apply pad_length. pose proof (len_nonneg (QUESTIONS_literal cfg)). lia. Qed.

(** If the literal is numbered from 1, so is the padded catalog. *)
Lemma QUESTIONS_numbered cfg :
  numbered_from 1 (QUESTIONS_literal cfg) = true -> numbered cfg = true.
Proof. apply pad_numbered. Qed.

Lemma find_numbered k qs i :
  numbered_from k qs = true ->
  find (fun q => q_id q =? i) qs
  = if (k <=? i) && (i <? k + Py.len qs) then nth_error qs (Z.to_nat (i - k))
    else None.
Proof.
  revert k; induction qs as [|q r IH]; intros k H.
  - change (Py.len (@nil Question)) with 0. cbn [find].
    destruct (Z.leb_spec k i), (Z.ltb_spec i (k + 0)); try lia; reflexivity.
  - cbn [numbered_from] in H. apply andb_true_iff in H as [Hq Hr].
    apply Z.eqb_eq in Hq. cbn [find]. rewrite (IH _ Hr).
    replace (Py.len (q :: r)) with (1 + Py.len r)
      by (unfold Py.len; cbn [List.length]; lia).
    pose proof (len_nonneg r) as Hn.
    destruct (Z.eqb_spec (q_id q) i) as [Heq|Hne].
    + destruct (Z.leb_spec k i), (Z.ltb_spec i (k + (1 + Py.len r)));
        try lia. cbn [andb]. replace (i - k) with 0 by lia. reflexivity.
    + destruct (Z.leb_spec (k + 1) i), (Z.leb_spec k i); try lia;
        cbn [andb]; auto;
        destruct (Z.ltb_spec i (k + 1 + Py.len r)),
                 (Z.ltb_spec i (k + (1 + Py.len r))); try lia; auto.
      replace (Z.to_nat (i - k)) with (S (Z.to_nat (i - (k + 1)))) by lia.
      reflexivity.
Qed.

(** Inside the catalog [get_q] returns the question at that position. *)
Lemma get_q_in_range cfg i :
  numbered cfg = true -> 1 <= i <= Py.len (QUESTIONS cfg) ->
  exists q, get_q cfg i = inr q /\ q_id q = i
            /\ nth_error (QUESTIONS cfg) (Z.to_nat (i - 1)) = Some q.
Proof.
  intros Hn Hi. unfold get_q.
  destruct (find _ _) as [q|] eqn:E.
  - exists q. split; auto. split.
    + apply find_some in E. apply Z.eqb_eq, E.
    + rewrite (find_numbered 1 _ i Hn) in E.
      destruct (_ && _); congruence.
  - rewrite (find_numbered 1 _ i Hn) in E.
    destruct (Z.leb_spec 1 i), (Z.ltb_spec i (1 + Py.len (QUESTIONS cfg)));
      try lia; simpl in E.
    apply nth_error_None in E. unfold Py.len in *. lia.
Qed.

(** Outside the catalog [get_q] raises [StopIteration]. *)
Lemma get_q_out_of_range cfg i :
  numbered cfg = true -> i < 1 \/ Py.len (QUESTIONS cfg) < i ->
  get_q cfg i = inl Py.StopIteration.
Proof.
  intros Hn Hi. unfold get_q. rewrite (find_numbered 1 _ i Hn).
  destruct (Z.leb_spec 1 i), (Z.ltb_spec i (1 + Py.len (QUESTIONS cfg)));
    try lia; reflexivity.
Qed.

(* ================================================================= *)
(** ** The store as a dict *)

Lemma existsb_eqb_In x l : existsb (String.eqb x) l = true <-> In x l.
Proof.
  rewrite existsb_exists. split.
  - intros [y [Hy E]]. apply String.eqb_eq in E. now subst.
  - intro H. exists x. split; auto. apply String.eqb_refl.
Qed.

Lemma distinct_NoDup l : distinct l = true <-> NoDup l.
Proof.
  induction l as [|x r IH]; simpl.
  - split; auto using NoDup_nil.
  - rewrite andb_true_iff, negb_true_iff, IH. split.
    + intros [H1 H2]. constructor; auto. rewrite <- existsb_eqb_In. congruence.
    + intro H. inversion H as [|? ? Hx Hr]; subst. split; auto.
      destruct (existsb _ r) eqn:E; auto. apply existsb_eqb_In in E. tauto.
Qed.

Lemma get_In n s t : get n s = Some t -> In t s /\ team_name t = n.
Proof.
  intro H. apply find_some in H as [H1 H2]. split; auto.
  now apply String.eqb_eq.
Qed.

Lemma get_None n s : get n s = None <-> ~ In n (names s).
Proof.
  unfold get, names. induction s as [|x r IH]; simpl.
  - tauto.
  - destruct (String.eqb_spec (team_name x) n) as [E|E].
    + split; [discriminate | tauto].
    + rewrite IH. tauto.
Qed.

Lemma owned_by_In uid s t : owned_by uid s = Some t -> In t s /\ user_id t = uid.
Proof.
  intro H. apply find_some in H as [H1 H2]. split; auto. now apply Z.eqb_eq.
Qed.

(** In a dict the name determines the record. *)
Lemma dict_unique s x y :
  is_dict s = true -> In x s -> In y s -> team_name x = team_name y -> x = y.
Proof.
  unfold is_dict. rewrite distinct_NoDup.
  induction s as [|z r IH]; simpl; [tauto|].
  intros Hd Hx Hy E. inversion Hd as [|? ? Hz Hr]; subst.
  destruct Hx as [->|Hx], Hy as [->|Hy]; auto.
  - exfalso. apply Hz. rewrite E. now apply in_map.
  - exfalso. apply Hz. rewrite <- E. now apply in_map.
Qed.

Lemma get_dict_set_same t s : get (team_name t) (dict_set t s) = Some t.
Proof.
  unfold get. induction s as [|x r IH]; simpl.
  - now rewrite String.eqb_refl.
  - destruct (String.eqb_spec (team_name x) (team_name t)) as [E|E]; simpl.
    + now rewrite String.eqb_refl.
    + destruct (String.eqb_spec (team_name x) (team_name t)); [tauto | exact IH].
Qed.

Lemma get_dict_set_other n t s :
  team_name t <> n -> get n (dict_set t s) = get n s.
Proof.
  unfold get. intro Hn. induction s as [|x r IH]; simpl.
  - destruct (String.eqb_spec (team_name t) n); tauto.
  - destruct (String.eqb_spec (team_name x) (team_name t)) as [E|E]; simpl.
    + destruct (String.eqb_spec (team_name t) n); [tauto|].
      destruct (String.eqb_spec (team_name x) n); [congruence | reflexivity].
    + now rewrite IH.
Qed.

(** A new key goes to the end. *)
Lemma dict_set_fresh t s : get (team_name t) s = None -> dict_set t s = (s ++ [t])%list.
Proof.
  unfold get. induction s as [|x r IH]; simpl; auto.
  destruct (String.eqb_spec (team_name x) (team_name t)); [discriminate|].
  intro H. now rewrite IH.
Qed.

(** Assigning twice under one key is assigning the last value. *)
Lemma dict_set_twice t1 t2 s :
  team_name t1 = team_name t2 -> dict_set t2 (dict_set t1 s) = dict_set t2 s.
Proof.
  intro E. induction s as [|x r IH]; simpl.
  - rewrite E, String.eqb_refl. reflexivity.
  - rewrite E. destruct (String.eqb_spec (team_name x) (team_name t2)) as [E'|E']; simpl.
    + now rewrite E, String.eqb_refl.
    + destruct (String.eqb_spec (team_name x) (team_name t2)); [tauto|].
      now rewrite IH.
Qed.

Lemma dict_set_relabel s t t' :
  is_dict s = true -> In t s -> team_name t' = team_name t ->
  dict_set t' s = map (relabel t t') s.
Proof.
  unfold is_dict. rewrite distinct_NoDup. unfold relabel.
  induction s as [|x r IH]; simpl; [tauto|].
  intros Hd Hin E. inversion Hd as [|? ? Hx Hr]; subst. rewrite E.
  destruct (String.eqb_spec (team_name x) (team_name t)) as [Ex|Ex].
  - f_equal. rewrite <- (map_id r) at 1. apply map_ext_in.
    intros y Hy. destruct (String.eqb_spec (team_name y) (team_name t)) as [Ey|Ey]; auto.
    exfalso. apply Hx. rewrite Ex, <- Ey. now apply in_map.
  - destruct Hin as [->|Hin]; [tauto|]. f_equal. apply IH; auto.
Qed.

Lemma names_relabel s t t' :
  team_name t' = team_name t -> names (map (relabel t t') s) = names s.
Proof.
  intro E. unfold names. rewrite map_map. apply map_ext. intro x. unfold relabel.
  destruct (String.eqb_spec (team_name x) (team_name t)); congruence.
Qed.

Lemma find_app_l {A} (p : A -> bool) (l l' : list A) x :
  find p l = Some x -> find p (l ++ l')%list = Some x.
Proof.
  induction l as [|y r IH]; simpl; [discriminate|]. destruct (p y); auto.
Qed.

Lemma find_map_stable {A} (p : A -> bool) (f : A -> A) (l : list A) :
  (forall x, In x l -> p (f x) = p x) ->
  find p (map f l) = option_map f (find p l).
Proof.
  induction l as [|x r IH]; simpl; auto. intro H.
  rewrite (H x (or_introl eq_refl)). destruct (p x); simpl; auto.
Qed.

(** Updating a record of a dict in place, with its name and owner kept:
    the dict stays a dict, and look-ups by name and by owner find the same
    positions as before. *)
Lemma dict_set_in_place s t t' :
  is_dict s = true -> In t s ->
  team_name t' = team_name t -> user_id t' = user_id t ->
  is_dict (dict_set t' s) = true
  /\ (forall n, get n (dict_set t' s) = option_map (relabel t t') (get n s))
  /\ (forall uid, owned_by uid (dict_set t' s)
                  = option_map (relabel t t') (owned_by uid s)).
Proof.
  intros Hd Hin En Eu. rewrite (dict_set_relabel s t t' Hd Hin En).
  split; [|split].
  - unfold is_dict. now rewrite names_relabel.
  - intro n. apply find_map_stable. intros x _. unfold relabel.
    destruct (String.eqb_spec (team_name x) (team_name t)); congruence.
  - intro uid. apply find_map_stable. intros x Hx. unfold relabel.
    destruct (String.eqb_spec (team_name x) (team_name t)) as [E|E]; auto.
    rewrite (dict_unique s x t Hd Hx Hin E). congruence.
Qed.

Lemma relabel_self t t' : relabel t t' t = t'.
Proof. unfold relabel. now rewrite String.eqb_refl. Qed.

(** A new key keeps the dict a dict and hides no older record. *)
Lemma dict_set_new s t :
  is_dict s = true -> get (team_name t) s = None ->
  is_dict (s ++ [t])%list = true
  /\ (forall n x, get n s = Some x -> get n (s ++ [t])%list = Some x)
  /\ (forall uid x, owned_by uid s = Some x -> owned_by uid (s ++ [t])%list = Some x).
Proof.
  intros Hd Hn. split; [|split].
  - unfold is_dict in *. rewrite distinct_NoDup in *. unfold names.
    rewrite map_app. cbn [map]. apply NoDup_app; auto.
    + constructor; [simpl; tauto | constructor].
    + intros a Ha [<-|[]]. apply get_None in Hn. tauto.
  - intros n x H. now apply find_app_l.
  - intros uid x H. now apply find_app_l.
Qed.

(* ================================================================= *)
(** ** Arithmetic of the award *)

Lemma max_cases a b :
  (a < b /\ Py.max a b = b)%Q \/ (b <= a /\ Py.max a b = a)%Q.
Proof.
  unfold Py.max, Py.Qltb. destruct (a ?= b)%Q eqn:E.
  - right. split; auto. apply Qeq_alt in E. rewrite E. apply Qle_refl.
  - left. split; auto.
  - right. split; auto. apply Qlt_le_weak. now apply Qgt_alt.
Qed.

(** Python's [max] on two numbers computes the maximum. *)
Lemma max_is_Qmax a b : Py.max a b = Qmax a b.
Proof.
  unfold Py.max, Py.Qltb, Qmax, GenericMinMax.gmax.
  now destruct (a ?= b)%Q.
Qed.

Lemma points_for_nonneg cfg h : (0 <= points_for cfg h)%Q.
Proof.
  unfold points_for.
  destruct (max_cases 0 (fsub cfg 1 (fmul cfg (float_of_int cfg h) (HINT_PENALTY cfg))))
    as [[H ->]|[H ->]].
  - now apply Qlt_le_weak.
  - apply Qle_refl.
Qed.

(** In binary64 with half a point per hint the award is 1, 1/2 or 0. *)
Lemma points_for_half cfg h :
  binary64 cfg -> HINT_PENALTY cfg = 1 # 2 -> 0 <= h <= 2 ->
  points_for cfg h = (if h =? 0 then 1 else if h =? 1 then 1 # 2 else 0)%Q.
Proof.
  intros (Hi & _ & Hs & Hm) Hp Hh. unfold points_for. rewrite Hi, Hs, Hm, Hp.
  assert (E : h = 0 \/ h = 1 \/ h = 2) by lia.
  destruct E as [->|[->| ->]]; vm_compute; reflexivity.
Qed.

(** The awards of the default game, and those of a game that takes a tenth of
    a point per hint: there one hint leaves the double above 9/10. *)
Example award_default :
  map (points_for default_config) [0; 1; 2; 3; 4] = [1; 1 # 2; 0; 0; 0]%Q.
Proof. vm_compute. reflexivity. Qed.

Example award_tenth :
  map (points_for tenth_config) [0; 1; 2]
  = [1; 8106479329266893 # 9007199254740992; 3602879701896397 # 4503599627370496]%Q.
Proof. vm_compute. reflexivity. Qed.

Example award_tenth_is_not_exact :
  ~ (points_for tenth_config 1 == 1 - inject_Z 1 * HINT_PENALTY tenth_config)%Q.
Proof. vm_compute. discriminate. Qed.

(* ================================================================= *)
(** ** Running the handlers *)

(** The coroutine boundary renames an exception and nothing else. *)
Lemma coroutine_fst {A} (m : Handler A) w : fst (coroutine m w) = fst (m w).
Proof.
  unfold coroutine. destruct (m w) as [w' [[]|a]]; reflexivity.
Qed.

Lemma coroutine_ok {A} (m : Handler A) w w' a :
  m w = (w', inr a) -> coroutine m w = (w', inr a).
Proof. unfold coroutine. now intros ->. Qed.

Lemma begin_run cfg uid s out :
  begin cfg uid {| STORE := s; sent := out |}
  = match owned_by uid s with
    | None => ({| STORE := s; sent := out |}, inr tt)
    | Some t =>
        match get_q cfg (current_q t) with
        | inr q => ({| STORE := s;
                       sent := out ++ [QuestionPrompt q (attempts_left t)] |}, inr tt)
        | inl e => ({| STORE := s; sent := out |}, inl e)
        end
    end.
Proof.
  unfold begin, bind, _require_team, lift, reply_text, ret. cbn [STORE sent].
  destruct (owned_by uid s) as [t|]; [|reflexivity].
  now destruct (get_q cfg (current_q t)).
Qed.

(** [begin] never touches the store. *)
Lemma begin_store cfg uid w : STORE (fst (begin cfg uid w)) = STORE w.
Proof.
  destruct w as [s out]. rewrite begin_run.
  destruct (owned_by uid s) as [t|]; [|reflexivity].
  now destruct (get_q cfg (current_q t)).
Qed.

(** [answer] once the team, the arguments and the question are there. *)
Lemma answer_run cfg uid a args s out team q :
  owned_by uid s = Some team ->
  get_q cfg (current_q team) = inr q ->
  answer cfg uid (a :: args) {| STORE := s; sent := out |}
  = if out_of_range cfg team q then
      ({| STORE := s; sent := out ++ [NotAtLocation] |}, inr tt)
    else if matches cfg q (a :: args) then
      if Py.len (QUESTIONS cfg) <? current_q team + 1 then
        ({| STORE := dict_set (solved cfg team) s;
            sent := out ++ [Finished (score (solved cfg team))] |}, inr tt)
      else
        begin cfg uid
          {| STORE := dict_set (solved cfg team) s;
             sent := out ++ [Correct (points_for cfg (hints_used_current_q team))
                                     (score (solved cfg team))] |}
    else if attempts_left team - 1 <=? 0 then
      if current_q team + 1 <=? Py.len (QUESTIONS cfg) then
        begin cfg uid
          {| STORE := dict_set (exhausted cfg (missed team)) (dict_set (missed team) s);
             sent := out ++ [OutOfAttempts] |}
      else
        ({| STORE := dict_set (exhausted cfg (missed team)) (dict_set (missed team) s);
            sent := (out ++ [OutOfAttempts]) ++ [GameOver (score team)] |}, inr tt)
    else
      ({| STORE := dict_set (missed team) s;
          sent := out ++ [Incorrect (attempts_left team - 1)] |}, inr tt).
Proof.
  intros Ho Hq.
  unfold answer, bind, _require_team, lift, upsert, reply_text, ret.
  cbn [STORE sent]. rewrite Ho, Hq.
  destruct (out_of_range cfg team q); auto. unfold matches.
  destruct (_ =? _)%string; cbn [solved missed exhausted current_q attempts_left score].
  - destruct (Py.len (QUESTIONS cfg) <? current_q team + 1); reflexivity.
  - destruct (attempts_left team - 1 <=? 0); auto.
    destruct (current_q team + 1 <=? Py.len (QUESTIONS cfg)); reflexivity.
Qed.

(** The record of a correct answer and of an exhausted challenge keep the
    name and the owner. *)
Lemma exhausted_missed cfg t : exhausted cfg (missed t) = exhausted cfg t.
Proof. reflexivity. Qed.

(* ================================================================= *)
(** ** Correct answers *)

(** C1 as written does not hold: with the geofence on, a team whose last
    location is outside the radius submits the right code of its current
    question and is told it is not at the location; nothing is awarded and
    the record is untouched. *)
Lemma right_code_outside_the_fence :
  owned_by 9 [beta] = Some beta
  /\ 1 <= current_q beta <= Py.len (QUESTIONS fenced_config)
  /\ get_q fenced_config (current_q beta) = inr old_supreme_court
  /\ matches fenced_config old_supreme_court ["merlion"] = true
  /\ answer fenced_config 9 ["merlion"] {| STORE := [beta]; sent := [] |}
     = ({| STORE := [beta]; sent := [NotAtLocation] |}, inr tt).
Proof. vm_compute. repeat split; discriminate. Qed.

(** C1, amended. A team inside the catalog whose submission passes the
    location guard and equals the answer code of its current question up to
    case is moved to [solved]: the reply carries the award and the new
    score, the award is [max(0.0, 1.0 - hints_used * HINT_PENALTY)] in the
    arithmetic of the configuration and is added to the score with its
    addition; it is never negative, and in binary64 with a penalty of one
    half it is exactly 1 without hints and exactly 0 with two hints. *)
Theorem correct_answer_award cfg uid args s out team q :
  is_dict s = true ->
  owned_by uid s = Some team ->
  numbered cfg = true ->
  1 <= current_q team <= Py.len (QUESTIONS cfg) ->
  get_q cfg (current_q team) = inr q ->
  args <> [] ->
  out_of_range cfg team q = false ->
  matches cfg q args = true ->
  exists rest,
    answer cfg uid args {| STORE := s; sent := out |}
    = ({| STORE := dict_set (solved cfg team) s;
          sent := out ++
            (if Py.len (QUESTIONS cfg) <? current_q team + 1
             then Finished (fadd cfg (score team)
                                 (points_for cfg (hints_used_current_q team)))
             else Correct (points_for cfg (hints_used_current_q team))
                          (fadd cfg (score team)
                                (points_for cfg (hints_used_current_q team))))
            :: rest |}, inr tt)
    /\ owned_by uid (dict_set (solved cfg team) s) = Some (solved cfg team)
    /\ score (solved cfg team)
       = fadd cfg (score team) (points_for cfg (hints_used_current_q team))
    /\ points_for cfg (hints_used_current_q team)
       = Qmax 0 (fsub cfg 1 (fmul cfg (float_of_int cfg (hints_used_current_q team))
                                      (HINT_PENALTY cfg)))
    /\ (0 <= points_for cfg (hints_used_current_q team))%Q
    /\ (binary64 cfg -> HINT_PENALTY cfg = 1 # 2 -> hints_used_current_q team = 0 ->
        points_for cfg (hints_used_current_q team) = 1%Q
        /\ score (solved cfg team) = f64_add (score team) 1)
    /\ (binary64 cfg -> HINT_PENALTY cfg = 1 # 2 -> hints_used_current_q team = 2 ->
        points_for cfg (hints_used_current_q team) = 0%Q
        /\ score (solved cfg team) = f64_add (score team) 0).
Proof.
  intros Hd Ho Hn Hi Hq Ha Hr Hc.
  destruct (owned_by_In _ _ _ Ho) as [Hin Hu].
  destruct (dict_set_in_place s team (solved cfg team) Hd Hin eq_refl eq_refl)
    as (Hd' & _ & Hown).
  assert (Ho' : owned_by uid (dict_set (solved cfg team) s) = Some (solved cfg team)).
  { rewrite Hown, Ho. cbn [option_map]. now rewrite relabel_self. }
  destruct args as [|a args]; [congruence|].
  rewrite (answer_run cfg uid a args s out team q Ho Hq), Hr, Hc.
  assert (exists rest,
    (if Py.len (QUESTIONS cfg) <? current_q team + 1
     then ({| STORE := dict_set (solved cfg team) s;
              sent := out ++ [Finished (score (solved cfg team))] |}, inr tt)
     else begin cfg uid
            {| STORE := dict_set (solved cfg team) s;
               sent := out ++ [Correct (points_for cfg (hints_used_current_q team))
                                       (score (solved cfg team))] |})
    = ({| STORE := dict_set (solved cfg team) s;
          sent := out ++
            (if Py.len (QUESTIONS cfg) <? current_q team + 1
             then Finished (fadd cfg (score team)
                                 (points_for cfg (hints_used_current_q team)))
             else Correct (points_for cfg (hints_used_current_q team))
                          (fadd cfg (score team)
                                (points_for cfg (hints_used_current_q team))))
            :: rest |}, inr tt)) as [rest Hrun].
  { destruct (Z.ltb_spec (Py.len (QUESTIONS cfg)) (current_q team + 1)) as [Hl|Hl].
    - exists []. reflexivity.
    - rewrite begin_run, Ho'.
      destruct (get_q_in_range cfg (current_q (solved cfg team)) Hn) as (q' & Hq' & _).
      { cbn [solved current_q]. lia. }
      rewrite Hq'. exists [QuestionPrompt q' (attempts_left (solved cfg team))].
      now rewrite <- app_assoc. }
  exists rest. split; [exact Hrun|]. split; [exact Ho'|]. split; [reflexivity|].
  split; [apply max_is_Qmax|]. split; [apply points_for_nonneg|].
  split; intros Hb Hp Hh; cbn [solved score];
    rewrite (points_for_half cfg _ Hb Hp), Hh by lia;
    (split; [reflexivity|]); destruct Hb as (_ & -> & _); reflexivity.
Qed.

Lemma correct_answer_award_witness :
  (exists replies,
      answer default_config 7 ["merlion"] {| STORE := [alpha]; sent := [] |}
      = ({| STORE := dict_set (solved default_config alpha) [alpha];
            sent := replies |}, inr tt))
  /\ points_for default_config (hints_used_current_q alpha) = 0%Q
  /\ score (solved default_config alpha) = f64_add (score alpha) 0.
Proof.
  destruct (correct_answer_award default_config 7 ["merlion"] [alpha] [] alpha
              old_supreme_court)
    as (rest & Hrun & _ & _ & _ & _ & _ & Htwo).
  - reflexivity.
  - reflexivity.
  - reflexivity.
  - vm_compute. split; discriminate.
  - reflexivity.
  - discriminate.
  - reflexivity.
  - reflexivity.
  - split.
    + eexists. exact Hrun.
    + apply Htwo; [repeat split | reflexivity | reflexivity].
Defined.

(* ================================================================= *)
(** ** Wrong answers *)

(** The store after [answer], whatever [begin] does afterwards. *)
Lemma answer_store cfg uid a args s out team q :
  owned_by uid s = Some team ->
  get_q cfg (current_q team) = inr q ->
  STORE (fst (answer cfg uid (a :: args) {| STORE := s; sent := out |}))
  = if out_of_range cfg team q then s
    else if matches cfg q (a :: args) then dict_set (solved cfg team) s
    else if attempts_left team - 1 <=? 0 then dict_set (exhausted cfg team) s
    else dict_set (missed team) s.
Proof.
  intros Ho Hq.
  rewrite (answer_run cfg uid a args s out team q Ho Hq).
  destruct (out_of_range cfg team q); auto.
  destruct (matches cfg q (a :: args)).
  - destruct (_ <? _); auto. now rewrite begin_store.
  - rewrite exhausted_missed, (dict_set_twice (missed team)) by reflexivity.
    destruct (_ <=? 0); auto. destruct (_ <=? _); auto. now rewrite begin_store.
Qed.

Lemma answer_step cfg uid a args s team q :
  owned_by uid s = Some team ->
  get_q cfg (current_q team) = inr q ->
  step cfg s (CmdAnswer uid (a :: args))
  = if out_of_range cfg team q then s
    else if matches cfg q (a :: args) then dict_set (solved cfg team) s
    else if attempts_left team - 1 <=? 0 then dict_set (exhausted cfg team) s
    else dict_set (missed team) s.
Proof.
  intros Ho Hq. unfold step, dispatch. rewrite coroutine_fst.
  now apply answer_store.
Qed.

Lemma run_cons cfg u us s : run cfg (u :: us) s = run cfg us (step cfg s u).
Proof. reflexivity. Qed.

(** As many wrong answers as attempts are left close the challenge. *)
Lemma wrong_answers_run cfg uid q argss :
  forall s team,
    is_dict s = true ->
    owned_by uid s = Some team ->
    get_q cfg (current_q team) = inr q ->
    out_of_range cfg team q = false ->
    Forall (fun args => args <> [] /\ matches cfg q args = false) argss ->
    argss <> [] ->
    attempts_left team = Py.len argss ->
    run cfg (map (CmdAnswer uid) argss) s = dict_set (exhausted cfg team) s.
Proof.
  induction argss as [|args rest IH]; intros s team Hd Ho Hq Hr Hw Hne Ha;
    [congruence|].
  inversion Hw as [|? ? [Hargs Hm] Hw']; subst.
  destruct args as [|a args]; [congruence|].
  cbn [map]. rewrite run_cons, (answer_step cfg uid a args s team q Ho Hq), Hr, Hm.
  replace (Py.len ((a :: args) :: rest)) with (1 + Py.len rest) in Ha
    by (unfold Py.len; cbn [List.length]; lia).
  destruct rest as [|args' rest].
  - change (Py.len (@nil (list string))) with 0 in Ha.
    replace (attempts_left team - 1) with 0 by lia. reflexivity.
  - pose proof (len_nonneg rest) as Hl.
    replace (Py.len (args' :: rest)) with (1 + Py.len rest) in Ha
      by (unfold Py.len; cbn [List.length]; lia).
    destruct (Z.leb_spec (attempts_left team - 1) 0) as [Hle|Hgt]; [lia|].
    destruct (owned_by_In _ _ _ Ho) as [Hin Hu].
    destruct (dict_set_in_place s team (missed team) Hd Hin eq_refl eq_refl)
      as (Hd' & _ & Hown).
    rewrite (IH (dict_set (missed team) s) (missed team)); auto.
    + rewrite exhausted_missed. now apply dict_set_twice.
    + rewrite Hown, Ho. cbn [option_map]. now rewrite relabel_self.
    + discriminate.
    + cbn [missed attempts_left]. unfold Py.len in *. cbn [List.length] in *. lia.
Qed.

(** C2 as written does not hold: with the geofence on, a team with one
    attempt left whose last location is outside the radius submits a wrong
    code and is told it is not at the location; the attempt is not taken,
    nothing is appended to the history and the index stays. *)
Lemma wrong_code_outside_the_fence :
  attempts_left (missed (missed beta)) = 1
  /\ owned_by 9 [missed (missed beta)] = Some (missed (missed beta))
  /\ get_q fenced_config (current_q (missed (missed beta))) = inr old_supreme_court
  /\ matches fenced_config old_supreme_court ["nope"] = false
  /\ answer fenced_config 9 ["nope"]
       {| STORE := [missed (missed beta)]; sent := [] |}
     = ({| STORE := [missed (missed beta)]; sent := [NotAtLocation] |}, inr tt).
Proof. vm_compute. repeat split. Qed.

(** C2, amended. With one attempt left, a wrong code that passes the
    location guard closes the challenge: one history entry (not correct, no
    points, the whole budget as attempts, the hints taken) is appended, the
    index goes up by one, attempts return to the budget and the hints to
    zero, and the score stays.  A full budget of consecutive wrong answers on
    one challenge ends in the same record.  A code is wrong when its
    upper-cased, stripped text differs from the upper-cased answer code. *)
Theorem last_wrong_answer_advances cfg uid s team q :
  is_dict s = true ->
  owned_by uid s = Some team ->
  get_q cfg (current_q team) = inr q ->
  out_of_range cfg team q = false ->
  (forall args out,
      attempts_left team = 1 -> args <> [] -> matches cfg q args = false ->
      exists rest,
        fst (answer cfg uid args {| STORE := s; sent := out |})
        = {| STORE := dict_set (exhausted cfg team) s;
             sent := out ++ OutOfAttempts :: rest |})
  /\ owned_by uid (dict_set (exhausted cfg team) s) = Some (exhausted cfg team)
  /\ history (exhausted cfg team)
     = (history team ++
        [{| h_q := current_q team; h_correct := false; h_points := 0;
            h_attempts := ATTEMPTS_PER_Q cfg;
            h_hints := hints_used_current_q team |}])%list
  /\ current_q (exhausted cfg team) = current_q team + 1
  /\ attempts_left (exhausted cfg team) = ATTEMPTS_PER_Q cfg
  /\ hints_used_current_q (exhausted cfg team) = 0
  /\ score (exhausted cfg team) = score team
  /\ (forall argss,
        attempts_left team = ATTEMPTS_PER_Q cfg ->
        Py.len argss = ATTEMPTS_PER_Q cfg -> 1 <= ATTEMPTS_PER_Q cfg ->
        Forall (fun args => args <> [] /\ matches cfg q args = false) argss ->
        run cfg (map (CmdAnswer uid) argss) s = dict_set (exhausted cfg team) s).
Proof.
  intros Hd Ho Hq Hr.
  destruct (owned_by_In _ _ _ Ho) as [Hin Hu].
  destruct (dict_set_in_place s team (exhausted cfg team) Hd Hin eq_refl eq_refl)
    as (Hd' & _ & Hown).
  assert (Ho' : owned_by uid (dict_set (exhausted cfg team) s)
                = Some (exhausted cfg team)).
  { rewrite Hown, Ho. cbn [option_map]. now rewrite relabel_self. }
  split; [|repeat split; auto].
  - intros args out Ha Hargs Hm. destruct args as [|a args]; [congruence|].
    rewrite (answer_run cfg uid a args s out team q Ho Hq), Hr.
    fold (matches cfg q (a :: args)). rewrite Hm, Ha. cbn [Z.sub Z.add Z.opp Z.pos_sub Z.leb Z.compare].
    rewrite exhausted_missed, (dict_set_twice (missed team)) by reflexivity.
    destruct (_ <=? _).
    + rewrite begin_run, Ho'.
      destruct (get_q cfg (current_q (exhausted cfg team))) as [e|q'].
      * exists []. reflexivity.
      * exists [QuestionPrompt q' (attempts_left (exhausted cfg team))].
        cbn [fst]. now rewrite <- app_assoc.
    + exists [GameOver (score team)]. cbn [fst]. now rewrite <- app_assoc.
  - intros argss Ha Hl Hb Hw. apply (wrong_answers_run cfg uid q); auto.
    + intros ->. change (Py.len (@nil (list string))) with 0 in Hl. lia.
    + congruence.
Qed.

Lemma last_wrong_answer_advances_witness :
  (exists rest,
      fst (answer default_config 7 ["nope"] {| STORE := [alpha]; sent := [] |})
      = {| STORE := dict_set (exhausted default_config alpha) [alpha];
           sent := [] ++ OutOfAttempts :: rest |})
  /\ run default_config (map (CmdAnswer 7) [["a"]; ["b"]; ["c"]])
       [new_team default_config "Alpha" 7]
     = dict_set (exhausted default_config (new_team default_config "Alpha" 7))
         [new_team default_config "Alpha" 7].
Proof.
  split.
  - apply (proj1 (last_wrong_answer_advances default_config 7 [alpha] alpha
                    old_supreme_court eq_refl eq_refl eq_refl eq_refl)).
    + reflexivity.
    + discriminate.
    + reflexivity.
  - apply (last_wrong_answer_advances default_config 7
             [new_team default_config "Alpha" 7] (new_team default_config "Alpha" 7)
             old_supreme_court eq_refl eq_refl eq_refl eq_refl).
    + reflexivity.
    + reflexivity.
    + simpl. lia.
    + repeat constructor; discriminate.
Defined.

(* ================================================================= *)
(** ** What one update does to the store *)

Lemma hint_run cfg uid s out team q :
  owned_by uid s = Some team ->
  get_q cfg (current_q team) = inr q ->
  hint cfg uid {| STORE := s; sent := out |}
  = if Py.len (hints q) <=? hints_used_current_q team then
      ({| STORE := s; sent := out ++ [NoMoreHints] |}, inr tt)
    else
      match Py.index (hints q) (hints_used_current_q team) with
      | inr text =>
          ({| STORE := dict_set (hinted team) s;
              sent := out ++ [HintText (hints_used_current_q team + 1) text] |},
           inr tt)
      | inl e => ({| STORE := dict_set (hinted team) s; sent := out |}, inl e)
      end.
Proof.
  intros Ho Hq. unfold hint, bind, _require_team, lift, upsert, reply_text, ret.
  cbn [STORE sent]. rewrite Ho, Hq.
  destruct (Py.len (hints q) <=? hints_used_current_q team); [reflexivity|].
  now destruct (Py.index (hints q) (hints_used_current_q team)).
Qed.

(** Every update leaves the store alone, or appends a fresh record under a
    free name, or rewrites the first record of the sender in place, or (the
    administrator's [force]) rewrites the record of a given name. *)
Lemma step_effect cfg s u :
  step cfg s u = s
  \/ (exists uid name,
        get name s = None /\ step cfg s u = (s ++ [new_team cfg name uid])%list)
  \/ (is_force u = false /\
      exists uid t t',
        owned_by uid s = Some t /\ change cfg t t' /\ step cfg s u = dict_set t' s)
  \/ (is_force u = true /\
      exists name qn t,
        get name s = Some t /\ step cfg s u = dict_set (forced cfg t qn) s).
Proof.
  unfold step, dispatch. rewrite coroutine_fst.
  destruct u as [uid|uid args|uid|uid args|uid|uid|uid|uid|uid args|uid args
                |uid args|uid la lo now]; cbv beta iota;
    try (left; reflexivity).
  - (* register *)
    destruct args as [|a args]; [left; reflexivity|].
    unfold register, bind, upsert, reply_text. cbn [STORE sent fst].
    destruct (get _ s) eqn:E; [left; reflexivity|].
    right; left. exists uid, (str_strip cfg (Py.join " " (a :: args))).
    split; auto. now apply dict_set_fresh.
  - (* begin *)
    left. apply (begin_store cfg uid {| STORE := s; sent := [] |}).
  - (* answer *)
    destruct (owned_by uid s) as [team|] eqn:Ho.
    2:{ left. unfold answer, bind, _require_team. cbn [STORE]. now rewrite Ho. }
    destruct args as [|a args].
    { left. unfold answer, bind, _require_team. cbn [STORE]. now rewrite Ho. }
    destruct (get_q cfg (current_q team)) as [e|q] eqn:Hq.
    { left. unfold answer, bind, _require_team, lift. cbn [STORE]. now rewrite Ho, Hq. }
    rewrite (answer_store cfg uid a args s [] team q Ho Hq).
    destruct (out_of_range cfg team q); [now left|].
    right; right; left. split; auto. exists uid, team.
    destruct (matches cfg q (a :: args)); [|destruct (_ <=? _)];
      eexists; (split; [exact Ho|split; [|reflexivity]]); constructor.
  - (* hint *)
    destruct (owned_by uid s) as [team|] eqn:Ho.
    2:{ left. unfold hint, bind, _require_team. cbn [STORE]. now rewrite Ho. }
    destruct (get_q cfg (current_q team)) as [e|q] eqn:Hq.
    { left. unfold hint, bind, _require_team, lift. cbn [STORE]. now rewrite Ho, Hq. }
    rewrite (hint_run cfg uid s [] team q Ho Hq).
    destruct (Py.len (hints q) <=? hints_used_current_q team); [now left|].
    right; right; left. split; auto. exists uid, team, (hinted team).
    split; auto. split; [constructor|].
    now destruct (Py.index (hints q) (hints_used_current_q team)).
  - (* status *)
    left. unfold status_cmd, bind, _require_team, reply_text, ret. cbn [STORE].
    now destruct (owned_by uid s).
  - (* broadcast *)
    left. unfold broadcast. now destruct (negb _).
  - (* where *)
    left. unfold where_. destruct (negb _); auto. destruct args; auto.
    cbn [STORE]. now destruct (get _ s).
  - (* force *)
    unfold force. destruct (negb _); [now left|].
    destruct args as [|name [|a1 rest]]; try (now left).
    unfold bind, lift. destruct (to_int cfg a1) as [e|qn]; [now left|].
    cbn [STORE]. destruct (get name s) as [team|] eqn:Hg; [|now left].
    right; right; right. split; auto. exists name, qn, team. now split.
  - (* a location message *)
    unfold on_location, bind, _require_team, upsert, reply_text, ret. cbn [STORE].
    destruct (owned_by uid s) as [team|] eqn:Ho; [|now left].
    right; right; left. split; auto.
    exists uid, team, (located team {| lat := la; lon := lo; ts := now |}).
    split; auto. split; [constructor | reflexivity].
Qed.

Lemma change_keeps cfg t t' :
  change cfg t t' -> team_name t' = team_name t /\ user_id t' = user_id t.
Proof. intros []; split; reflexivity. Qed.

Lemma Forall_dict_set (P : TeamState -> Prop) t s :
  Forall P s -> P t -> Forall P (dict_set t s).
Proof.
  intros Hs Ht. induction Hs as [|x r Hx Hr IH]; simpl.
  - now constructor.
  - destruct (_ =? _)%string; constructor; auto.
Qed.

(** Every update keeps the store a dict. *)
Lemma step_is_dict cfg s u : is_dict s = true -> is_dict (step cfg s u) = true.
Proof.
  intro Hd.
  destruct (step_effect cfg s u)
    as [->|[(uid & name & Hg & ->)|[(_ & uid & t & t' & Ho & Hc & ->)
       |(_ & name & qn & t & Hg & ->)]]]; auto.
  - now apply (dict_set_new s (new_team cfg name uid)).
  - destruct (owned_by_In _ _ _ Ho) as [Hin _], (change_keeps _ _ _ Hc) as [En Eu].
    now apply (dict_set_in_place s t t').
  - destruct (get_In _ _ _ Hg) as [Hin _].
    now apply (dict_set_in_place s t (forced cfg t qn)).
Qed.

Lemma run_is_dict cfg us : forall s, is_dict s = true -> is_dict (run cfg us s) = true.
Proof.
  induction us as [|u us IH]; intros s Hd; auto.
  rewrite run_cons. apply IH. now apply step_is_dict.
Qed.

Lemma reachable_is_dict cfg s : reachable cfg s -> is_dict s = true.
Proof. intros [us <-]. now apply run_is_dict. Qed.

(* ================================================================= *)
(** ** History and index *)

(** The administrator moves Alpha to question 5 right after registration:
    the history is empty and the index is 5. *)
Lemma forced_index_without_history :
  exists t,
    run fenced_config [CmdRegister 7 ["Alpha"]; CmdForce 900 ["Alpha"; "5"]] [] = [t]
    /\ reachable fenced_config [t]
    /\ Py.len (history t) <> current_q t - 1.
Proof.
  eexists. split; [reflexivity|]. split.
  - exists [CmdRegister 7 ["Alpha"]; CmdForce 900 ["Alpha"; "5"]]. reflexivity.
  - vm_compute. discriminate.
Qed.

(* ================================================================= *)
(** ** After the last question *)

Example omega_is_finished :
  finished_store = [omega]
  /\ current_q omega = 11 /\ Py.len (history omega) = 10 /\ attempts_left omega = 3.
Proof. vm_compute. repeat split; reflexivity. Qed.




(* ================================================================= *)
(** ** The location guard *)

(** C6. If the team has a recorded location that [within_geofence] rejects
    for the current question (which needs the geofence switched on), an
    answer, right or wrong, gets the "not at the location" reply and the
    store is untouched.  If the team has no recorded location the guard does
    not look at the geofence at all, and a matching code is accepted. *)
Theorem location_guard cfg uid args s out team q :
  owned_by uid s = Some team ->
  get_q cfg (current_q team) = inr q ->
  args <> [] ->
  (forall loc,
      last_location team = Some loc ->
      within_geofence cfg q (lat loc) (lon loc) = false ->
      answer cfg uid args {| STORE := s; sent := out |}
      = ({| STORE := s; sent := out ++ [NotAtLocation] |}, inr tt)
      /\ USE_GEOFENCE cfg = true)
  /\ (last_location team = None ->
      out_of_range cfg team q = false
      /\ (matches cfg q args = true ->
          exists rest,
            fst (answer cfg uid args {| STORE := s; sent := out |})
            = {| STORE := dict_set (solved cfg team) s;
                 sent := out ++
                   (if Py.len (QUESTIONS cfg) <? current_q team + 1
                    then Finished (score (solved cfg team))
                    else Correct (points_for cfg (hints_used_current_q team))
                                 (score (solved cfg team)))
                   :: rest |})).
Proof.
  intros Ho Hq Ha. destruct args as [|a args]; [congruence|].
  rewrite (answer_run cfg uid a args s out team q Ho Hq).
  fold (matches cfg q (a :: args)). split.
  - intros loc Hl Hw. unfold out_of_range. rewrite Hl, Hw. split; auto.
    unfold within_geofence in Hw. destruct (USE_GEOFENCE cfg); auto.
  - intros Hl. assert (Hr : out_of_range cfg team q = false)
      by (unfold out_of_range; now rewrite Hl).
    split; auto. intros Hm. rewrite Hr, Hm.
    destruct (Py.len (QUESTIONS cfg) <? current_q team + 1).
    + exists []. reflexivity.
    + rewrite begin_run.
      destruct (owned_by uid (dict_set (solved cfg team) s)) as [t|];
        [destruct (get_q cfg (current_q t)) as [e|q']|];
        cbn [fst]; eexists; try reflexivity.
      rewrite <- app_assoc. reflexivity.
Qed.

Lemma location_guard_witness :
  (answer fenced_config 9 ["merlion"] {| STORE := [beta]; sent := [] |}
   = ({| STORE := [beta]; sent := [] ++ [NotAtLocation] |}, inr tt)
   /\ USE_GEOFENCE fenced_config = true)
  /\ (exists rest,
        fst (answer fenced_config 7 ["merlion"] {| STORE := [alpha]; sent := [] |})
        = {| STORE := dict_set (solved fenced_config alpha) [alpha];
             sent := [] ++
               (if Py.len (QUESTIONS fenced_config) <? current_q alpha + 1
                then Finished (score (solved fenced_config alpha))
                else Correct (points_for fenced_config (hints_used_current_q alpha))
                             (score (solved fenced_config alpha)))
               :: rest |}).
Proof.
  split.
  - refine (proj1 (location_guard fenced_config 9 ["merlion"] [beta] [] beta
                     old_supreme_court _ _ _)
              {| lat := 0; lon := 0; ts := 1700000000 |} _ _);
      try reflexivity. discriminate.
  - refine (proj2 (proj2 (location_guard fenced_config 7 ["merlion"] [alpha] [] alpha
                            old_supreme_court _ _ _) _) _);
      try reflexivity. discriminate.
Defined.

(* ================================================================= *)
(** ** Hints *)


Lemma index_in_range {A} (l : list A) i :
  0 <= i < Py.len l ->
  exists x, Py.index l i = inr x /\ nth_error l (Z.to_nat i) = Some x.
Proof.
  intros Hi. unfold Py.index.
  destruct (Z.ltb_spec i 0); [lia|].
  destruct (Z.ltb_spec i 0); [lia|].
  destruct (Z.leb_spec (Py.len l) i); [lia|]. cbn [orb].
  destruct (nth_error l (Z.to_nat i)) as [x|] eqn:E.
  - now exists x.
  - apply nth_error_None in E. unfold Py.len in Hi. lia.
Qed.



(* ================================================================= *)
(** ** Every integer can be given to [force] *)

Lemma isdigit_chars c :
  Py.isdigit c = true ->
  Py.isspace c = false /\ (c =? "_")%char = false
  /\ (c =? "-")%char = false /\ (c =? "+")%char = false.
Proof.
  destruct c as [[] [] [] [] [] [] [] []]; intro H; try discriminate H;
    repeat split; reflexivity.
Qed.

Lemma string_of_uint_digits d : all_digits (NilEmpty.string_of_uint d) = true.
Proof. induction d; simpl; auto. Qed.

Lemma lstrip_digits c r : Py.isdigit c = true -> Py.lstrip (String c r) = String c r.
Proof.
  intro H. destruct (isdigit_chars c H) as (Hs & _). cbn [Py.lstrip]. now rewrite Hs.
Qed.

Lemma rstrip_digits s : all_digits s = true -> Py.rstrip s = s.
Proof.
  induction s as [|c r IH]; intro H; auto.
  cbn [all_digits] in H. apply andb_true_iff in H as [Hc Hr].
  cbn [Py.rstrip]. rewrite (IH Hr). destruct (isdigit_chars c Hc) as (Hs & _).
  destruct r; [now rewrite Hs | reflexivity].
Qed.

Lemma digits_of_digits s :
  all_digits s = true ->
  forall prev, s <> EmptyString \/ prev = true -> Py.digits_of prev s = Some s.
Proof.
  induction s as [|c r IH]; intros H prev Hp.
  - destruct Hp as [Hp| ->]; [congruence | reflexivity].
  - cbn [all_digits] in H. apply andb_true_iff in H as [Hc Hr].
    destruct (isdigit_chars c Hc) as (_ & Hu & _).
    cbn [Py.digits_of]. rewrite Hu, Hc, (IH Hr true) by auto. reflexivity.
Qed.

Lemma string_of_uint_nonnil d :
  d <> Decimal.Nil -> NilZero.string_of_uint d = NilEmpty.string_of_uint d.
Proof. destruct d; [congruence | reflexivity ..]. Qed.

Lemma nat_literal_uint d :
  d <> Decimal.Nil ->
  Py.nat_literal (NilEmpty.string_of_uint d) = inr (Z.of_uint d).
Proof.
  intro Hd. unfold Py.nat_literal.
  rewrite (digits_of_digits _ (string_of_uint_digits d) false).
  - rewrite <- (string_of_uint_nonnil d Hd). now rewrite NilZero.usu.
  - left. destruct d; simpl; [congruence | discriminate ..].
Qed.

Lemma int_digits c r :
  Py.isdigit c = true -> all_digits r = true ->
  Py.int (String c r) = Py.nat_literal (String c r).
Proof.
  intros Hc Hr. unfold Py.int, Py.strip. rewrite (lstrip_digits c r Hc).
  rewrite rstrip_digits by (cbn [all_digits]; now rewrite Hc).
  destruct (isdigit_chars c Hc) as (_ & _ & Hm & Hp).
  destruct c as [[] [] [] [] [] [] [] []]; try discriminate Hm; try discriminate Hp;
    reflexivity.
Qed.

(** [int] reads back the decimal notation of every integer. *)
Lemma int_str_of_Z z : Py.int (str_of_Z z) = inr z.
Proof.
  unfold str_of_Z. destruct z as [|p|p]; [reflexivity| |].
  - cbn [Z.to_int NilZero.string_of_int].
    pose proof (Unsigned.to_uint_nonnil p) as Hn.
    rewrite (string_of_uint_nonnil _ Hn).
    pose proof (string_of_uint_digits (Pos.to_uint p)) as Hd.
    pose proof (nat_literal_uint _ Hn) as Hl.
    destruct (NilEmpty.string_of_uint (Pos.to_uint p)) as [|c r] eqn:E.
    + destruct (Pos.to_uint p); simpl in E; congruence.
    + cbn [all_digits] in Hd. apply andb_true_iff in Hd as [Hc Hr].
      rewrite (int_digits c r Hc Hr), Hl. unfold Z.of_uint.
      now rewrite Unsigned.of_to.
  - cbn [Z.to_int NilZero.string_of_int].
    pose proof (Unsigned.to_uint_nonnil p) as Hn.
    rewrite (string_of_uint_nonnil _ Hn).
    pose proof (string_of_uint_digits (Pos.to_uint p)) as Hd.
    pose proof (nat_literal_uint _ Hn) as Hl.
    unfold Py.int, Py.strip. cbn [Py.lstrip].
    change (Py.isspace "-") with false. cbv iota.
    cbn [Py.rstrip]. rewrite (rstrip_digits _ Hd).
    destruct (NilEmpty.string_of_uint (Pos.to_uint p)) as [|c r] eqn:E.
    + destruct (Pos.to_uint p); simpl in E; congruence.
    + cbv iota. rewrite Hl. unfold Z.of_uint. now rewrite Unsigned.of_to.
Qed.

(* ================================================================= *)
(** ** The administrator's override *)

Lemma maxZ_minZ a b c : Py.maxZ a (Py.minZ b c) = Z.max a (Z.min b c).
Proof.
  unfold Py.maxZ, Py.minZ.
  destruct (Z.ltb_spec c b);
    [destruct (Z.ltb_spec a c) | destruct (Z.ltb_spec a b)]; lia.
Qed.

(** C8. [force], sent by an administrator for an existing team with a
    number that [int] reads (and the ASCII reader [Py.int] reads the decimal
    notation of every integer), stores the record [forced]: the index is the number clamped
    into 1..catalog length, the attempts are the budget, the hints are zero,
    and history, score, name, owner and last location are those of the old
    record. *)
Theorem force_sets_index cfg uid name a1 more s out team qn :
  is_admin cfg uid = true ->
  get name s = Some team ->
  to_int cfg a1 = inr qn ->
  force cfg uid (name :: a1 :: more) {| STORE := s; sent := out |}
  = ({| STORE := dict_set (forced cfg team qn) s;
        sent := out ++ [Forced name (Z.max 1 (Z.min qn (Py.len (QUESTIONS cfg))))] |},
     inr tt)
  /\ get name (dict_set (forced cfg team qn) s) = Some (forced cfg team qn)
  /\ current_q (forced cfg team qn) = Z.max 1 (Z.min qn (Py.len (QUESTIONS cfg)))
  /\ 1 <= current_q (forced cfg team qn) <= Py.len (QUESTIONS cfg)
  /\ (1 <= qn <= Py.len (QUESTIONS cfg) -> current_q (forced cfg team qn) = qn)
  /\ attempts_left (forced cfg team qn) = ATTEMPTS_PER_Q cfg
  /\ hints_used_current_q (forced cfg team qn) = 0
  /\ history (forced cfg team qn) = history team
  /\ score (forced cfg team qn) = score team
  /\ team_name (forced cfg team qn) = team_name team
  /\ user_id (forced cfg team qn) = user_id team
  /\ last_location (forced cfg team qn) = last_location team
  /\ Py.int (str_of_Z qn) = inr qn.
Proof.
  intros Had Hg Hi.
  assert (Hc : current_q (forced cfg team qn)
               = Z.max 1 (Z.min qn (Py.len (QUESTIONS cfg))))
    by apply maxZ_minZ.
  pose proof (QUESTIONS_at_least_10 cfg) as Hlen.
  split; [|split; [|split; [exact Hc|split; [|split; [|repeat split]]]]].
  - unfold force, bind, lift, upsert, reply_text. rewrite Had, Hi. cbn [negb STORE sent].
    rewrite Hg. cbn [STORE sent]. now rewrite Hc.
  - destruct (get_In _ _ _ Hg) as [_ <-]. apply (get_dict_set_same (forced cfg team qn)).
  - rewrite Hc. lia.
  - rewrite Hc. lia.
  - apply int_str_of_Z.
Qed.

Lemma force_sets_index_witness :
  force fenced_config 900 ["Alpha"; "42"] {| STORE := [alpha]; sent := [] |}
  = ({| STORE := dict_set (forced fenced_config alpha 42) [alpha];
        sent := [] ++ [Forced "Alpha" (Z.max 1 (Z.min 42 (Py.len (QUESTIONS fenced_config))))] |},
     inr tt)
  /\ current_q (forced fenced_config alpha 42) = 10.
Proof.
  destruct (force_sets_index fenced_config 900 "Alpha" "42" [] [alpha] [] alpha 42
              eq_refl eq_refl eq_refl) as (H1 & _ & H2 & _).
  split; [exact H1 | exact H2].
Defined.

(* ================================================================= *)
(** ** Registration and ownership *)

(** After an update in place, a look-up finds the old record or, at the
    updated place, the new one. *)
Lemma in_place_get s t0 t' n t :
  is_dict s = true -> In t0 s ->
  team_name t' = team_name t0 -> user_id t' = user_id t0 ->
  get n s = Some t ->
  exists x, get n (dict_set t' s) = Some x
            /\ team_name x = team_name t /\ user_id x = user_id t
            /\ (x = t \/ (t = t0 /\ x = t')).
Proof.
  intros Hd Hin En Eu Hg.
  destruct (dict_set_in_place s t0 t' Hd Hin En Eu) as (_ & Hget & _).
  rewrite Hget, Hg. cbn [option_map]. unfold relabel.
  destruct (get_In _ _ _ Hg) as [Hin' _].
  destruct (String.eqb_spec (team_name t) (team_name t0)) as [E|E].
  - rewrite (dict_unique s t t0 Hd Hin' Hin E). exists t'.
    split; [reflexivity|]. split; [exact En|]. split; [exact Eu|]. right. now split.
  - exists t. split; [reflexivity|]. split; [reflexivity|]. split; [reflexivity|].
    now left.
Qed.


Lemma forced_keeps cfg t qn :
  team_name (forced cfg t qn) = team_name t /\ user_id (forced cfg t qn) = user_id t.
Proof. split; reflexivity. Qed.

(** No update changes the owner of a name. *)
Lemma step_keeps_owner cfg s u n t :
  is_dict s = true -> get n s = Some t ->
  exists t', get n (step cfg s u) = Some t' /\ user_id t' = user_id t.
Proof.
  intros Hd Hg.
  destruct (step_effect cfg s u)
    as [->|[(uid & name & Hfree & ->)|[(_ & uid & t0 & t' & Ho & Hc & ->)
       |(_ & name & qn & t0 & Hg0 & ->)]]].
  - now exists t.
  - exists t. split; auto.
    now apply (dict_set_new s (new_team cfg name uid) Hd Hfree).
  - destruct (owned_by_In _ _ _ Ho) as [Hin _], (change_keeps _ _ _ Hc) as [En Eu].
    destruct (in_place_get s t0 t' n t Hd Hin En Eu Hg) as (x & Hx & _ & Hu & _).
    now exists x.
  - destruct (get_In _ _ _ Hg0) as [Hin _].
    destruct (in_place_get s t0 (forced cfg t0 qn) n t Hd Hin eq_refl eq_refl Hg)
      as (x & Hx & _ & Hu & _).
    now exists x.
Qed.

Lemma run_keeps_owner cfg us :
  forall s n t,
    is_dict s = true -> get n s = Some t ->
    exists t', get n (run cfg us s) = Some t' /\ user_id t' = user_id t.
Proof.
  induction us as [|u us IH]; intros s n t Hd Hg.
  - now exists t.
  - rewrite run_cons.
    destruct (step_keeps_owner cfg s u n t Hd Hg) as (t1 & Hg1 & Hu1).
    destruct (IH (step cfg s u) n t1 (step_is_dict cfg s u Hd) Hg1) as (t2 & Hg2 & Hu2).
    exists t2. split; auto. congruence.
Qed.

(** Registering a free name appends the fresh record. *)
Lemma register_free cfg uid args s out :
  args <> [] ->
  get (str_strip cfg (Py.join " " args)) s = None ->
  register cfg uid args {| STORE := s; sent := out |}
  = ({| STORE := (s ++ [new_team cfg (str_strip cfg (Py.join " " args)) uid])%list;
        sent := out ++ [TeamRegistered (str_strip cfg (Py.join " " args))] |}, inr tt).
Proof.
  intros Ha Hg. destruct args as [|a args]; [congruence|].
  unfold register, bind, upsert, reply_text. cbn [STORE sent]. rewrite Hg.
  now rewrite dict_set_fresh.
Qed.

(** C9. Registering a name that the store holds is refused with "this team
    name is taken" and the store, hence the record and its owner, stays as
    it was; registering a free name appends a record with index 1, score 0,
    the whole budget of attempts and no hints; and whatever updates follow,
    a name keeps the owner that claimed it. *)
Theorem register_claims_name cfg uid args s out :
  args <> [] ->
  is_dict s = true ->
  (forall t,
      get (str_strip cfg (Py.join " " args)) s = Some t ->
      register cfg uid args {| STORE := s; sent := out |}
      = ({| STORE := s; sent := out ++ [TeamNameTaken] |}, inr tt))
  /\ (get (str_strip cfg (Py.join " " args)) s = None ->
      register cfg uid args {| STORE := s; sent := out |}
      = ({| STORE := (s ++ [new_team cfg (str_strip cfg (Py.join " " args)) uid])%list;
            sent := out ++ [TeamRegistered (str_strip cfg (Py.join " " args))] |}, inr tt)
      /\ new_team cfg (str_strip cfg (Py.join " " args)) uid
         = {| team_name := str_strip cfg (Py.join " " args);
              user_id := uid;
              current_q := 1;
              score := 0;
              attempts_left := ATTEMPTS_PER_Q cfg;
              hints_used_current_q := 0;
              history := [];
              last_location := None |})
  /\ (forall n t us,
        get n s = Some t ->
        exists t', get n (run cfg us s) = Some t' /\ user_id t' = user_id t).
Proof.
  intros Ha Hd. split; [|split].
  - intros t Hg. destruct args as [|a args]; [congruence|].
    unfold register. cbn [STORE]. now rewrite Hg.
  - intros Hg. split; [now apply register_free | reflexivity].
  - intros n t us Hg. now apply run_keeps_owner.
Qed.

Lemma register_claims_name_witness :
  register default_config 99 ["Alpha"] {| STORE := [alpha]; sent := [] |}
  = ({| STORE := [alpha]; sent := [] ++ [TeamNameTaken] |}, inr tt)
  /\ register default_config 99 ["Red"; "Team"] {| STORE := [alpha]; sent := [] |}
     = ({| STORE := ([alpha] ++ [new_team default_config "Red Team" 99])%list;
           sent := [] ++ [TeamRegistered "Red Team"] |}, inr tt)
  /\ (exists t',
        get "Alpha" (run default_config
                       [CmdRegister 99 ["Alpha"]; CmdAnswer 7 ["merlion"]] [alpha])
        = Some t' /\ user_id t' = user_id alpha).
Proof.
  split; [|split].
  - apply (proj1 (register_claims_name default_config 99 ["Alpha"] [alpha] []
                    ltac:(discriminate) eq_refl) alpha).
    reflexivity.
  - apply (proj1 (proj2 (register_claims_name default_config 99 ["Red"; "Team"]
                           [alpha] [] ltac:(discriminate) eq_refl))).
    reflexivity.
  - apply (proj2 (proj2 (register_claims_name default_config 99 ["Alpha"] [alpha] []
                           ltac:(discriminate) eq_refl)) "Alpha" alpha).
    reflexivity.
Defined.

(* ================================================================= *)
(** ** Two teams of one owner *)





(* ================================================================= *)
(** ** The scoreboard *)

(** Alpha closed question 1 without a point, Beta is still on it: the
    scores are equal, Alpha has the higher index, and Alpha is ranked
    second. *)
Lemma higher_index_ranks_later :
  exists a b,
    run default_config
      [CmdRegister 7 ["Alpha"]; CmdRegister 9 ["Beta"];
       CmdAnswer 7 ["x"]; CmdAnswer 7 ["x"]; CmdAnswer 7 ["x"]] [] = [a; b]
    /\ (score a == score b)%Q
    /\ current_q b < current_q a
    /\ fst (scoreboard {| STORE := [a; b]; sent := [] |})
       = {| STORE := [a; b]; sent := [Scoreboard [b; a]] |}.
Proof.
  do 2 eexists. split; [reflexivity|]. repeat split.
Qed.

Lemma Qltb_lt a b : Py.Qltb a b = true <-> (a < b)%Q.
Proof.
  unfold Py.Qltb. rewrite Qlt_alt. destruct (a ?= b)%Q; split; congruence.
Qed.

Lemma key_lt_spec a b :
  key_lt a b = true
  <-> (score b < score a)%Q \/ ((score a == score b)%Q /\ current_q a < current_q b).
Proof.
  unfold key_lt. destruct (Qeq_bool (- score a) (- score b)) eqn:E.
  - apply Qeq_bool_iff in E. rewrite Z.ltb_lt. split.
    + intro H. right. split; auto. lra.
    + intros [H|[_ H]]; auto. lra.
  - apply Qeq_bool_neq in E. rewrite Qltb_lt. split.
    + intro H. left. lra.
    + intros [H|[H _]]; [lra|]. exfalso. apply E. lra.
Qed.

Lemma key_lt_false a b : key_lt b a = false <-> ranks_no_later a b.
Proof.
  unfold ranks_no_later. rewrite <- not_true_iff_false, key_lt_spec. split.
  - intro H. destruct (Qlt_le_dec (score b) (score a)) as [Hlt|Hle]; auto.
    right. assert (Hs : (score a == score b)%Q).
    { apply Qle_antisym; auto. apply Qnot_lt_le. tauto. }
    split; auto. destruct (Z.le_gt_cases (current_q a) (current_q b)); auto.
    exfalso. apply H. right. split; [now symmetry | lia].
  - intros [H|[H1 H2]] [H'|[H1' H2']]; try lra; lia.
Qed.

Lemma ranks_no_later_trans a b c :
  ranks_no_later a b -> ranks_no_later b c -> ranks_no_later a c.
Proof.
  unfold ranks_no_later. intros [H|[H1 H2]] [H'|[H1' H2']].
  - left. lra.
  - left. lra.
  - left. lra.
  - right. split; [lra | lia].
Qed.

Lemma insert_perm t l : Permutation (t :: l) (insert t l).
Proof.
  induction l as [|x r IH]; simpl; auto.
  destruct (key_lt x t); auto.
  apply perm_trans with (x :: t :: r); [apply perm_swap | now apply perm_skip].
Qed.

Lemma sorted_perm l : Permutation l (sorted l).
Proof.
  induction l as [|t r IH]; simpl; auto.
  apply perm_trans with (t :: sorted r); [now apply perm_skip | apply insert_perm].
Qed.

Lemma insert_sorted t l :
  StronglySorted ranks_no_later l -> StronglySorted ranks_no_later (insert t l).
Proof.
  induction l as [|x r IH]; intro H; simpl.
  - repeat constructor.
  - inversion H as [|? ? Hr Hx]; subst.
    destruct (key_lt x t) eqn:E.
    + constructor; auto.
      apply (Permutation_Forall (insert_perm t r)). constructor; auto.
      apply key_lt_false. apply key_lt_spec in E. apply not_true_iff_false.
      rewrite key_lt_spec. intros [H'|[H1 H2]]; destruct E as [E|[E1 E2]]; try lra; lia.
    + apply key_lt_false in E. constructor; auto. constructor; auto.
      eapply Forall_impl; [|exact Hx]. intros y Hy.
      now apply (ranks_no_later_trans t x y).
Qed.

Lemma sorted_sorted l : StronglySorted ranks_no_later (sorted l).
Proof.
  induction l as [|t r IH]; simpl; [constructor | now apply insert_sorted].
Qed.

(** C3 (amended). The scoreboard is a function of the store alone and
    changes nothing; its ranking is a rearrangement of the records in
    which a record stands before another only if its score is higher, or
    the scores are equal and its index is not higher: score descending,
    then index ascending. *)
Theorem scoreboard_order s out :
  scoreboard {| STORE := s; sent := out |}
  = ({| STORE := s; sent := out ++ [Scoreboard (sorted s)] |}, inr tt)
  /\ Permutation s (sorted s)
  /\ StronglySorted ranks_no_later (sorted s)
  /\ (forall l1 a l2 b l3,
        sorted s = (l1 ++ a :: l2 ++ b :: l3)%list ->
        (score b <= score a)%Q
        /\ ((score a == score b)%Q -> current_q a <= current_q b)).
Proof.
  split; [reflexivity|]. split; [apply sorted_perm|]. split; [apply sorted_sorted|].
  intros l1 a l2 b l3 E. pose proof (sorted_sorted s) as H. rewrite E in H.
  assert (Hab : ranks_no_later a b).
  { clear E. induction l1 as [|x l1 IH]; simpl in H.
    - inversion H as [|? ? _ Hall]; subst. rewrite Forall_forall in Hall.
      apply Hall. apply in_or_app. right. now left.
    - inversion H; auto. }
  destruct Hab as [Hlt|[He Hq]]; split.
  - lra.
  - intro He. lra.
  - lra.
  - intros _. exact Hq.
Qed.

Lemma scoreboard_order_witness :
  Permutation [alpha; beta] (sorted [alpha; beta])
  /\ StronglySorted ranks_no_later (sorted [alpha; beta]).
Proof.
  destruct (scoreboard_order [alpha; beta] []) as (_ & H1 & H2 & _).
  split; [exact H1 | exact H2].
Defined.

(* ================================================================= *)
(** * Further properties of the source *)

(** ** The padding loop *)

Lemma numbers_after_S from n :
  numbers_after from (S n) = (from + 1) :: numbers_after (from + 1) n.
Proof.
  unfold numbers_after. cbn [seq map]. f_equal.
  rewrite <- seq_shift, map_map. apply map_ext. intro k. lia.
Qed.

Lemma pad_result fuel :
  forall qs,
    pad fuel qs
    = (qs ++ map spot (numbers_after (Py.len qs)
                         (Nat.min fuel (10 - List.length qs))))%list.
Proof.
  induction fuel as [|f IH]; intro qs.
  - cbn [pad Nat.min]. unfold numbers_after. cbn [seq map]. now rewrite app_nil_r.
  - cbn [pad]. destruct (Z.ltb_spec (Py.len qs) 10) as [Hlt|Hge].
    + rewrite IH, len_app. change (Py.len [spot (Py.len qs + 1)]) with 1.
      rewrite length_app. cbn [List.length].
      assert (Hn : (List.length qs < 10)%nat) by (unfold Py.len in Hlt; lia).
      replace (Nat.min (S f) (10 - List.length qs))
        with (S (Nat.min f (10 - (List.length qs + 1)))) by lia.
      rewrite numbers_after_S. cbn [map]. now rewrite <- app_assoc.
    + replace (Nat.min (S f) (10 - List.length qs)) with 0%nat
        by (unfold Py.len in Hge; lia).
      unfold numbers_after. cbn [seq map]. now rewrite app_nil_r.
Qed.

Lemma QUESTIONS_split cfg :
  QUESTIONS cfg
  = (QUESTIONS_literal cfg ++
     map spot (numbers_after (Py.len (QUESTIONS_literal cfg))
                 (10 - List.length (QUESTIONS_literal cfg))))%list.
Proof. unfold QUESTIONS. rewrite pad_result. do 3 f_equal. lia. Qed.

(** X1. The catalog is the list literal followed by the placeholder
    questions numbered from its length + 1 up to 10; its length is the
    larger of the literal's length and 10, and a literal of ten or more
    questions is left as it is. *)
Theorem padding_loop_result cfg :
  QUESTIONS cfg
  = (QUESTIONS_literal cfg ++
     map spot (numbers_after (Py.len (QUESTIONS_literal cfg))
                 (10 - List.length (QUESTIONS_literal cfg))))%list
  /\ Py.len (QUESTIONS cfg) = Z.max (Py.len (QUESTIONS_literal cfg)) 10
  /\ (10 <= Py.len (QUESTIONS_literal cfg) -> QUESTIONS cfg = QUESTIONS_literal cfg).
Proof.
  pose proof (QUESTIONS_split cfg) as E.
  split; [exact E|]. split.
  - rewrite E, len_app. unfold Py.len at 2, numbers_after.
    rewrite !length_map, length_seq. unfold Py.len. lia.
  - intro H. rewrite E.
    replace (10 - List.length (QUESTIONS_literal cfg))%nat with 0%nat
      by (unfold Py.len in H; lia).
    unfold numbers_after. cbn [seq map]. now rewrite app_nil_r.
Qed.

(** X2. When the literal is numbered from 1, [get_q] finds question [i]
    exactly for 1 <= i <= catalog length, it fails with [StopIteration]
    everywhere else, and beyond the literal it returns the placeholder
    question [i], whose answer code is "CODE" followed by [i]. *)
Theorem get_q_by_number cfg i :
  numbered_from 1 (QUESTIONS_literal cfg) = true ->
  (1 <= i <= Py.len (QUESTIONS cfg) -> exists q, get_q cfg i = inr q /\ q_id q = i)
  /\ (i < 1 \/ Py.len (QUESTIONS cfg) < i -> get_q cfg i = inl Py.StopIteration)
  /\ (Py.len (QUESTIONS_literal cfg) < i <= 10 ->
      get_q cfg i = inr (spot i)
      /\ answer_code (spot i) = ("CODE" ++ str_of_Z i)%string).
Proof.
  intro Hlit. pose proof (QUESTIONS_numbered cfg Hlit) as Hn.
  split; [|split].
  - intro Hi. destruct (get_q_in_range cfg i Hn Hi) as (q & Hq & Hid & _). now exists q.
  - now apply get_q_out_of_range.
  - intro Hi. split; [|reflexivity].
    pose proof (QUESTIONS_split cfg) as E.
    pose proof (QUESTIONS_at_least_10 cfg) as Hlen.
    pose proof (len_nonneg (QUESTIONS_literal cfg)) as H0.
    destruct (get_q_in_range cfg i Hn) as (q & Hq & _ & Hnth); [lia|].
    rewrite Hq. f_equal. rewrite E in Hnth.
    rewrite nth_error_app2 in Hnth by (unfold Py.len in Hi; lia).
    unfold numbers_after in Hnth. rewrite map_map in Hnth.
    rewrite nth_error_map in Hnth.
    destruct (nth_error (seq 1 _) _) as [k|] eqn:Ek; [|discriminate].
    cbn [option_map] in Hnth. injection Hnth as <-. f_equal.
    pose proof (nth_error_Some (seq 1 (10 - List.length (QUESTIONS_literal cfg)))
                  (Z.to_nat (i - 1) - List.length (QUESTIONS_literal cfg))) as Hs.
    rewrite Ek in Hs.
    assert (Hk : (Z.to_nat (i - 1) - List.length (QUESTIONS_literal cfg)
                  < List.length (seq 1 (10 - List.length (QUESTIONS_literal cfg))))%nat)
      by (apply Hs; discriminate).
    rewrite (nth_error_nth' _ 0%nat Hk) in Ek. injection Ek as <-.
    rewrite length_seq in Hk. rewrite seq_nth by exact Hk.
    unfold Py.len in *. lia.
Qed.

(** ** One update, with the tests the handler made *)

Lemma step_cases cfg s u :
  step cfg s u = s
  \/ (exists args,
        u = CmdRegister (sender u) args /\ args <> []
        /\ get (str_strip cfg (Py.join " " args)) s = None
        /\ step cfg s u
           = (s ++ [new_team cfg (str_strip cfg (Py.join " " args)) (sender u)])%list)
  \/ (is_force u = false /\
      exists t t',
        owned_by (sender u) s = Some t /\ transition cfg t t'
        /\ step cfg s u = dict_set t' s)
  \/ (exists name a1 more qn t,
        u = CmdForce (sender u) (name :: a1 :: more)
        /\ is_admin cfg (sender u) = true /\ to_int cfg a1 = inr qn
        /\ get name s = Some t
        /\ step cfg s u = dict_set (forced cfg t qn) s).
Proof.
  unfold step, dispatch. rewrite coroutine_fst.
  destruct u as [uid|uid args|uid|uid args|uid|uid|uid|uid|uid args|uid args
                |uid args|uid la lo now]; cbv beta iota; cbn [sender];
    try (left; reflexivity).
  - (* register *)
    destruct args as [|a args]; [left; reflexivity|].
    unfold register, bind, upsert, reply_text. cbn [STORE sent fst].
    destruct (get _ s) eqn:E; [left; reflexivity|].
    right; left. exists (a :: args). repeat split; auto; [discriminate|].
    now apply dict_set_fresh.
  - (* begin *)
    left. apply (begin_store cfg uid {| STORE := s; sent := [] |}).
  - (* answer *)
    destruct (owned_by uid s) as [team|] eqn:Ho.
    2:{ left. unfold answer, bind, _require_team. cbn [STORE]. now rewrite Ho. }
    destruct args as [|a args].
    { left. unfold answer, bind, _require_team. cbn [STORE]. now rewrite Ho. }
    destruct (get_q cfg (current_q team)) as [e|q] eqn:Hq.
    { left. unfold answer, bind, _require_team, lift. cbn [STORE]. now rewrite Ho, Hq. }
    rewrite (answer_store cfg uid a args s [] team q Ho Hq).
    destruct (out_of_range cfg team q); [now left|].
    right; right; left. split; auto. exists team.
    destruct (matches cfg q (a :: args));
      [|destruct (Z.leb_spec (attempts_left team - 1) 0)];
      eexists; (split; [reflexivity|split; [|reflexivity]]).
    + now apply (tr_solved cfg team q).
    + now apply (tr_exhausted cfg team q).
    + now apply (tr_missed cfg team q).
  - (* hint *)
    destruct (owned_by uid s) as [team|] eqn:Ho.
    2:{ left. unfold hint, bind, _require_team. cbn [STORE]. now rewrite Ho. }
    destruct (get_q cfg (current_q team)) as [e|q] eqn:Hq.
    { left. unfold hint, bind, _require_team, lift. cbn [STORE]. now rewrite Ho, Hq. }
    rewrite (hint_run cfg uid s [] team q Ho Hq).
    destruct (Z.leb_spec (Py.len (hints q)) (hints_used_current_q team)); [now left|].
    right; right; left. split; auto. exists team, (hinted team).
    split; auto. split; [now apply (tr_hinted cfg team q)|].
    now destruct (Py.index (hints q) (hints_used_current_q team)).
  - (* status *)
    left. unfold status_cmd, bind, _require_team, reply_text, ret. cbn [STORE].
    now destruct (owned_by uid s).
  - (* broadcast *)
    left. unfold broadcast. now destruct (negb _).
  - (* where *)
    left. unfold where_. destruct (negb _); auto. destruct args; auto.
    cbn [STORE]. now destruct (get _ s).
  - (* force *)
    unfold force. destruct (is_admin cfg uid) eqn:Had; cbn [negb]; [|now left].
    destruct args as [|name [|a1 more]]; try (now left).
    unfold bind, lift. destruct (to_int cfg a1) as [e|qn] eqn:Hi; [now left|].
    cbn [STORE]. destruct (get name s) as [team|] eqn:Hg; [|now left].
    right; right; right. exists name, a1, more, qn, team. now repeat split.
  - (* a location message *)
    unfold on_location, bind, _require_team, upsert, reply_text, ret. cbn [STORE].
    destruct (owned_by uid s) as [team|] eqn:Ho; [|now left].
    right; right; left. split; auto.
    exists team, (located team {| lat := la; lon := lo; ts := now |}).
    split; auto. split; [constructor | reflexivity].
Qed.

Lemma transition_keeps cfg t t' :
  transition cfg t t' -> team_name t' = team_name t /\ user_id t' = user_id t.
Proof. intros []; split; reflexivity. Qed.

(** ** Invariants of the records *)

Section RecordInvariant.

Variable cfg : Config.
Variable P : TeamState -> Prop.
Variable forcing : bool.

Hypothesis P_new : forall name uid, P (new_team cfg name uid).
Hypothesis P_transition : forall t t', transition cfg t t' -> P t -> P t'.
Hypothesis P_forced : forcing = true -> forall t qn, P t -> P (forced cfg t qn).

Lemma step_invariant s u :
  (is_force u = true -> forcing = true) ->
  Forall P s -> Forall P (step cfg s u).
Proof.
  intros Hf Hs.
  destruct (step_cases cfg s u)
    as [->|[(args & _ & _ & _ & ->)|[(_ & t & t' & Ho & Ht & ->)
       |(name & a1 & more & qn & t & Eu & _ & _ & Hg & ->)]]].
  - exact Hs.
  - apply Forall_app. split; [exact Hs|]. constructor; [apply P_new|constructor].
  - apply Forall_dict_set; [exact Hs|]. apply (P_transition t); [exact Ht|].
    rewrite Forall_forall in Hs. apply Hs. now apply (owned_by_In (sender u)).
  - apply Forall_dict_set; [exact Hs|]. apply P_forced.
    + apply Hf. rewrite Eu. reflexivity.
    + rewrite Forall_forall in Hs. apply Hs. now apply (get_In name).
Qed.

Lemma run_invariant us :
  forall s,
    (forcing = false -> forallb (fun u => negb (is_force u)) us = true) ->
    Forall P s -> Forall P (run cfg us s).
Proof.
  induction us as [|u us IH]; intros s Hf Hs; [exact Hs|].
  rewrite run_cons. apply IH.
  - intro H. specialize (Hf H). cbn [forallb] in Hf.
    now apply andb_true_iff in Hf.
  - apply step_invariant; [|exact Hs].
    intro Hu. destruct forcing; [reflexivity|].
    specialize (Hf eq_refl). cbn [forallb] in Hf. rewrite Hu in Hf. discriminate.
Qed.

End RecordInvariant.

(** ** One record at a time *)

Lemma get_app_None n s l : get n s = None -> get n (s ++ l)%list = get n l.
Proof.
  unfold get. induction s as [|x r IH]; cbn [app find]; [reflexivity|].
  destruct (team_name x =? n)%string; [discriminate | exact IH].
Qed.

(** A property of the record called [name] that registration establishes
    and the handlers of the players keep, holds as long as no [force] is
    applied to that record; the other records may be forced. *)
Lemma step_record cfg (P : TeamState -> Prop) name s u :
  (forall uid, P (new_team cfg name uid)) ->
  (forall t t', transition cfg t t' -> P t -> P t') ->
  forces cfg name u = false ->
  is_dict s = true ->
  (forall t, get name s = Some t -> P t) ->
  forall t, get name (step cfg s u) = Some t -> P t.
Proof.
  intros Pnew Ptr Hf Hd Hs t.
  destruct (step_cases cfg s u)
    as [->|[(args & _ & _ & Hfree & ->)|[(_ & t0 & t' & Ho & Ht & ->)
       |(name0 & a1 & more & qn & t0 & Eu & Had & Hi & Hg0 & ->)]]].
  - apply Hs.
  - destruct (get name s) as [x|] eqn:Hg.
    + destruct (dict_set_new s (new_team cfg (str_strip cfg (Py.join " " args))
                                  (sender u)) Hd Hfree) as (_ & Hkeep & _).
      rewrite (Hkeep name x Hg). intro E. injection E as <-. now apply Hs.
    + rewrite (get_app_None name s _ Hg). unfold get. cbn [find new_team team_name].
      destruct (String.eqb_spec (str_strip cfg (Py.join " " args)) name) as [->|];
        [|discriminate].
      intro E. injection E as <-. apply Pnew.
  - destruct (owned_by_In _ _ _ Ho) as [Hin _], (transition_keeps _ _ _ Ht) as [En Eu].
    destruct (get name s) as [x|] eqn:Hg.
    + destruct (in_place_get s t0 t' name x Hd Hin En Eu Hg)
        as (y & Hy & _ & _ & [Ey|[Ex Ey]]); rewrite Hy; intro E; injection E as <-.
      * rewrite Ey. now apply Hs.
      * rewrite Ey. apply (Ptr t0); [exact Ht|]. apply Hs. now rewrite <- Ex.
    + destruct (dict_set_in_place s t0 t' Hd Hin En Eu) as (_ & Hget & _).
      rewrite Hget, Hg. discriminate.
  - rewrite Eu in Hf. cbn [forces] in Hf. rewrite Had, Hi in Hf.
    cbn [andb] in Hf. rewrite andb_true_r in Hf.
    rewrite get_dict_set_other; [apply Hs|].
    cbn [forced team_name]. destruct (get_In _ _ _ Hg0) as [_ ->].
    now apply String.eqb_neq.
Qed.

Lemma run_record cfg (P : TeamState -> Prop) name us :
  (forall uid, P (new_team cfg name uid)) ->
  (forall t t', transition cfg t t' -> P t -> P t') ->
  forallb (fun u => negb (forces cfg name u)) us = true ->
  forall s,
    is_dict s = true ->
    (forall t, get name s = Some t -> P t) ->
    forall t, get name (run cfg us s) = Some t -> P t.
Proof.
  intros Pnew Ptr. induction us as [|u us IH]; intros Hf s Hd Hs; [exact Hs|].
  cbn [forallb] in Hf. apply andb_true_iff in Hf as [Hu Hf]. rewrite run_cons.
  apply (IH Hf); [now apply step_is_dict|].
  apply (step_record cfg P name s u); auto. now apply negb_true_iff.
Qed.

Lemma transition_history cfg t t' :
  transition cfg t t' ->
  Py.len (history t) = current_q t - 1 -> Py.len (history t') = current_q t' - 1.
Proof.
  intros Ht Hlen; destruct Ht; cbn [solved missed exhausted hinted located history current_q];
    auto; rewrite len_app; change (Py.len [_]) with 1; lia.
Qed.

(** C5, amended. Take any run of updates and any team name.  If no update
    of the run is a [force] that an administrator applies to that name with
    a number that [int] reads (the other teams may be forced at will), the
    record stored under the name has one history entry per closed
    challenge: the length of [history] is [current_q - 1].  A [force] that
    is applied to such a record keeps its history and stores the clamped
    number as its index, so that the equation survives only if the clamped
    number is the index the record had. *)
Theorem history_counts_closed_challenges cfg us name t :
  forallb (fun u => negb (forces cfg name u)) us = true ->
  get name (run cfg us []) = Some t ->
  Py.len (history t) = current_q t - 1
  /\ (forall uid a1 more qn,
        is_admin cfg uid = true -> to_int cfg a1 = inr qn ->
        exists t',
          get name (step cfg (run cfg us []) (CmdForce uid (name :: a1 :: more)))
          = Some t'
          /\ history t' = history t
          /\ current_q t' = Z.max 1 (Z.min qn (Py.len (QUESTIONS cfg)))
          /\ (Py.len (history t') = current_q t' - 1
              <-> Z.max 1 (Z.min qn (Py.len (QUESTIONS cfg))) = current_q t)).
Proof.
  intros Hf Hg.
  assert (Hinv : Py.len (history t) = current_q t - 1).
  { apply (run_record cfg (fun t => Py.len (history t) = current_q t - 1) name us)
      with (s := []); auto.
    - intros x y. apply transition_history.
    - discriminate. }
  split; [exact Hinv|]. intros uid a1 more qn Had Hi.
  exists (forced cfg t qn).
  assert (Hstep : step cfg (run cfg us []) (CmdForce uid (name :: a1 :: more))
                  = dict_set (forced cfg t qn) (run cfg us [])).
  { unfold step, dispatch. rewrite coroutine_fst.
    unfold force, bind, lift, upsert, reply_text. rewrite Had, Hi. cbn [negb STORE sent].
    now rewrite Hg. }
  rewrite Hstep. destruct (get_In _ _ _ Hg) as [_ En].
  split; [rewrite <- En; apply (get_dict_set_same (forced cfg t qn))|].
  split; [reflexivity|]. split; [apply maxZ_minZ|].
  cbn [forced history current_q]. rewrite maxZ_minZ. lia.
Qed.

Lemma history_counts_closed_challenges_witness :
  exists t,
    get "Alpha"
      (run fenced_config
         [CmdRegister 7 ["Alpha"]; CmdRegister 9 ["Beta"];
          CmdForce 900 ["Beta"; "5"]; CmdAnswer 7 ["merlion"];
          CmdForce 7 ["Alpha"; "3"]; CmdForce 900 ["Alpha"; "x"]] [])
    = Some t
    /\ Py.len (history t) = current_q t - 1.
Proof.
  eexists. split; [reflexivity|].
  apply (history_counts_closed_challenges fenced_config
           [CmdRegister 7 ["Alpha"]; CmdRegister 9 ["Beta"];
            CmdForce 900 ["Beta"; "5"]; CmdAnswer 7 ["merlion"];
            CmdForce 7 ["Alpha"; "3"]; CmdForce 900 ["Alpha"; "x"]]
           "Alpha").
  - reflexivity.
  - reflexivity.
Defined.



(** X4. With a budget of at least one attempt, every record of a reachable
    store has between 1 and the budget attempts left, and every history
    entry records between 1 and the budget attempts. *)
Theorem attempts_stay_in_budget cfg s :
  1 <= ATTEMPTS_PER_Q cfg ->
  reachable cfg s ->
  Forall (fun t =>
            1 <= attempts_left t <= ATTEMPTS_PER_Q cfg
            /\ Forall (fun e => 1 <= h_attempts e <= ATTEMPTS_PER_Q cfg) (history t)) s.
Proof.
  intros Hb [us <-].
  apply (run_invariant cfg
           (fun t =>
              1 <= attempts_left t <= ATTEMPTS_PER_Q cfg
              /\ Forall (fun e => 1 <= h_attempts e <= ATTEMPTS_PER_Q cfg) (history t))
           true).
  - intros name uid. cbn [new_team attempts_left history]. split; [lia|constructor].
  - intros t t' Ht [Ha Hh].
    destruct Ht; cbn [solved missed exhausted hinted located attempts_left history];
      auto; split; try lia; auto;
      apply Forall_app; (split; [exact Hh|]); constructor; try constructor;
      cbn [h_attempts]; lia.
  - intros _ t qn [Ha Hh]. cbn [forced attempts_left history]. split; [lia|exact Hh].
  - discriminate.
  - constructor.
Qed.

(** X5. In every reachable store the hints taken are between 0 and the
    number of hints of the record's current question (0 when the record is
    beyond the catalog), so the look-up [q['hints'][idx]] of [hint] never
    raises [IndexError]. *)
Theorem hints_stay_in_range cfg s :
  reachable cfg s ->
  Forall (fun t =>
            0 <= hints_used_current_q t
            /\ match get_q cfg (current_q t) with
               | inr q => hints_used_current_q t <= Py.len (hints q)
               | inl _ => hints_used_current_q t = 0
               end) s
  /\ (forall uid out,
        snd (hint cfg uid {| STORE := s; sent := out |}) <> inl Py.IndexError).
Proof.
  intros [us <-].
  assert (Hinv : Forall (fun t =>
            0 <= hints_used_current_q t
            /\ match get_q cfg (current_q t) with
               | inr q => hints_used_current_q t <= Py.len (hints q)
               | inl _ => hints_used_current_q t = 0
               end) (run cfg us [])).
  { apply (run_invariant cfg _ true).
    - intros name uid. cbn [new_team hints_used_current_q current_q].
      split; [lia|]. destruct (get_q cfg 1) as [e|q]; [reflexivity|apply len_nonneg].
    - intros t t' Ht [H0 Hq].
      destruct Ht as [t q Hg|t q Hg Ha|t q Hg Ha|t q Hg Hh|t loc];
        cbn [solved missed exhausted hinted located hints_used_current_q current_q];
        auto.
      + split; [lia|]. destruct (get_q cfg (current_q t + 1)); [reflexivity|apply len_nonneg].
      + split; [lia|]. destruct (get_q cfg (current_q t + 1)); [reflexivity|apply len_nonneg].
      + rewrite Hg. split; lia.
    - intros _ t qn _. cbn [forced hints_used_current_q current_q].
      split; [lia|]. destruct (get_q cfg _); [reflexivity|apply len_nonneg].
    - discriminate.
    - constructor. }
  split; [exact Hinv|]. intros uid out.
  destruct (owned_by uid (run cfg us [])) as [team|] eqn:Ho.
  - destruct (get_q cfg (current_q team)) as [e|q] eqn:Hq.
    + unfold hint, bind, _require_team, lift. cbn [STORE sent]. rewrite Ho, Hq.
      cbn [snd]. unfold get_q in Hq.
      destruct (find _ (QUESTIONS cfg)); [discriminate|].
      injection Hq as <-. discriminate.
    + rewrite (hint_run cfg uid _ out team q Ho Hq).
      destruct (Z.leb_spec (Py.len (hints q)) (hints_used_current_q team));
        [discriminate|].
      rewrite Forall_forall in Hinv.
      destruct (Hinv team (proj1 (owned_by_In _ _ _ Ho))) as [H0 _].
      destruct (index_in_range (hints q) (hints_used_current_q team)) as (x & -> & _);
        [lia | discriminate].
  - unfold hint, bind, _require_team, ret. cbn [STORE sent]. rewrite Ho. discriminate.
Qed.

(** X6. With a catalog numbered from 1, the index of every record of a
    reachable store is between 1 and the catalog length + 1: a record never
    moves past the position right after the last question. *)
Theorem index_stays_in_catalog cfg s :
  numbered cfg = true ->
  reachable cfg s ->
  Forall (fun t => 1 <= current_q t <= Py.len (QUESTIONS cfg) + 1) s.
Proof.
  intros Hn [us <-]. pose proof (QUESTIONS_at_least_10 cfg) as Hlen.
  assert (Hin : forall t q, get_q cfg (current_q t) = inr q ->
                            1 <= current_q t <= Py.len (QUESTIONS cfg)).
  { intros t q Hq.
    destruct (Z.le_gt_cases 1 (current_q t)) as [H1|H1];
      [destruct (Z.le_gt_cases (current_q t) (Py.len (QUESTIONS cfg))) as [H2|H2]|];
      [lia| |];
      rewrite (get_q_out_of_range cfg (current_q t) Hn) in Hq by lia; discriminate. }
  apply (run_invariant cfg _ true).
  - intros name uid. cbn [new_team current_q]. lia.
  - intros t t' Ht H.
    destruct Ht as [t q Hg|t q Hg Ha|t q Hg Ha|t q Hg Hh|t loc];
      cbn [solved missed exhausted hinted located current_q]; auto;
      specialize (Hin t q Hg); lia.
  - intros _ t qn _. cbn [forced current_q]. rewrite maxZ_minZ. lia.
  - discriminate.
  - constructor.
Qed.

Lemma numbers_after_last n :
  numbers_after 0 (S n) = (numbers_after 0 n ++ [Z.of_nat n + 1])%list.
Proof.
  unfold numbers_after. rewrite seq_S, map_app. cbn [map]. do 2 f_equal. lia.
Qed.

(** X7. In a store reached without [force] the history of a record lists
    the questions 1, 2, ..., [current_q - 1] in this order: one entry per
    closed question, none twice, none skipped. *)
Theorem history_in_question_order cfg s :
  reachable_unforced cfg s ->
  Forall (fun t =>
            map h_q (history t) = numbers_after 0 (List.length (history t))
            /\ Py.len (history t) = current_q t - 1) s.
Proof.
  intros (us & Hf & <-).
  apply (run_invariant cfg _ false).
  - intros name uid. split; reflexivity.
  - intros t t' Ht [Hq Hl].
    destruct Ht; cbn [solved missed exhausted hinted located history current_q];
      auto; rewrite map_app, length_app, Nat.add_1_r, numbers_after_last,
              len_app, Hq; cbn [map h_q]; change (Py.len [_]) with 1;
      (split; [|lia]); do 2 f_equal; unfold Py.len in Hl; lia.
  - discriminate.
  - intros _. exact Hf.
  - constructor.
Qed.

(** ** What an update may do to a record *)

Lemma step_relation cfg (R : TeamState -> TeamState -> Prop) s u n t :
  (forall x, R x x) ->
  (forall x y, transition cfg x y -> R x y) ->
  (is_force u = true -> forall x qn, R x (forced cfg x qn)) ->
  is_dict s = true -> get n s = Some t ->
  exists t', get n (step cfg s u) = Some t' /\ R t t'.
Proof.
  intros Rrefl Rtr Rforce Hd Hg.
  destruct (step_cases cfg s u)
    as [->|[(args & _ & _ & Hfree & ->)|[(_ & t0 & t' & Ho & Ht & ->)
       |(name & a1 & more & qn & t0 & Eu & _ & _ & Hg0 & ->)]]].
  - exists t. split; auto.
  - exists t. split; auto.
    now apply (dict_set_new s (new_team cfg (str_strip cfg (Py.join " " args)) (sender u))
                 Hd Hfree).
  - destruct (owned_by_In _ _ _ Ho) as [Hin _], (transition_keeps _ _ _ Ht) as [En Eu].
    destruct (in_place_get s t0 t' n t Hd Hin En Eu Hg)
      as (x & Hx & _ & _ & [->|[-> ->]]).
    + exists t. split; auto.
    + exists t'. split; auto.
  - destruct (get_In _ _ _ Hg0) as [Hin _].
    destruct (in_place_get s t0 (forced cfg t0 qn) n t Hd Hin eq_refl eq_refl Hg)
      as (x & Hx & _ & _ & [->|[-> ->]]).
    + exists t. split; auto.
    + exists (forced cfg t0 qn). split; auto. apply Rforce. rewrite Eu. reflexivity.
Qed.



(** X9. Without [force] the index stored under a name never decreases, and
    a sequence of updates raises it by at most one per update: no answer
    skips a question. *)
Theorem index_moves_one_step cfg us :
  forall s n t,
    forallb (fun u => negb (is_force u)) us = true ->
    is_dict s = true -> get n s = Some t ->
    exists t',
      get n (run cfg us s) = Some t'
      /\ current_q t <= current_q t' <= current_q t + Py.len us.
Proof.
  induction us as [|u us IH]; intros s n t Hf Hd Hg.
  - exists t. split; auto. change (Py.len (@nil Update)) with 0. lia.
  - cbn [forallb] in Hf. apply andb_true_iff in Hf as [Hu Hf].
    apply negb_true_iff in Hu. rewrite run_cons.
    destruct (step_relation cfg
                (fun x y => current_q x <= current_q y <= current_q x + 1)
                s u n t) as (t1 & Hg1 & H1); auto.
    + intro x. lia.
    + intros x y Hxy.
      destruct Hxy; cbn [solved missed exhausted hinted located current_q]; lia.
    + congruence.
    + destruct (IH (step cfg s u) n t1 Hf (step_is_dict cfg s u Hd) Hg1)
        as (t2 & Hg2 & H2).
      exists t2. split; auto.
      replace (Py.len (u :: us)) with (1 + Py.len us)
        by (unfold Py.len; cbn [List.length]; lia).
      lia.
Qed.

(** X10. An update other than [force] changes no record but the first
    record of its sender: every other record is found unchanged under its
    name afterwards. *)
Theorem only_the_senders_record_changes cfg s u n t :
  is_dict s = true ->
  is_force u = false ->
  get n s = Some t ->
  owned_by (sender u) s <> Some t ->
  get n (step cfg s u) = Some t.
Proof.
  intros Hd Hf Hg Hother.
  destruct (step_cases cfg s u)
    as [->|[(args & _ & _ & Hfree & ->)|[(_ & t0 & t' & Ho & Ht & ->)
       |(name & a1 & more & qn & t0 & Eu & _)]]].
  - exact Hg.
  - now apply (dict_set_new s (new_team cfg (str_strip cfg (Py.join " " args)) (sender u))
                 Hd Hfree).
  - destruct (owned_by_In _ _ _ Ho) as [Hin _], (transition_keeps _ _ _ Ht) as [En Eu].
    destruct (in_place_get s t0 t' n t Hd Hin En Eu Hg)
      as (x & Hx & _ & _ & [->|[-> ->]]); [exact Hx|].
    exfalso. now apply Hother.
  - rewrite Eu in Hf. discriminate.
Qed.

Lemma relabel_keys s t t' :
  is_dict s = true -> In t s ->
  team_name t' = team_name t -> user_id t' = user_id t ->
  map (fun x => (team_name x, user_id x)) (dict_set t' s)
  = map (fun x => (team_name x, user_id x)) s.
Proof.
  intros Hd Hin En Eu. rewrite (dict_set_relabel s t t' Hd Hin En), map_map.
  apply map_ext_in. intros x Hx. unfold relabel.
  destruct (String.eqb_spec (team_name x) (team_name t)) as [E|E]; auto.
  rewrite (dict_unique s x t Hd Hx Hin E). congruence.
Qed.

(** X11. Records are never deleted, reordered or handed to another owner:
    after any updates the list of (name, owner) pairs of the store is the
    old list followed by the pairs of the teams registered since. *)
Theorem records_never_leave cfg us :
  forall s,
    is_dict s = true ->
    exists more,
      map (fun x => (team_name x, user_id x)) (run cfg us s)
      = (map (fun x => (team_name x, user_id x)) s ++ more)%list.
Proof.
  induction us as [|u us IH]; intros s Hd.
  - exists []. now rewrite app_nil_r.
  - rewrite run_cons.
    destruct (IH (step cfg s u) (step_is_dict cfg s u Hd)) as (more & ->).
    destruct (step_cases cfg s u)
      as [->|[(args & _ & _ & Hfree & ->)|[(_ & t0 & t' & Ho & Ht & ->)
         |(name & a1 & more' & qn & t0 & Eu & _ & _ & Hg0 & ->)]]].
    + now exists more.
    + rewrite map_app, <- app_assoc. eexists. reflexivity.
    + destruct (owned_by_In _ _ _ Ho) as [Hin _], (transition_keeps _ _ _ Ht) as [En Eu].
      rewrite (relabel_keys s t0 t' Hd Hin En Eu). now exists more.
    + destruct (get_In _ _ _ Hg0) as [Hin _].
      rewrite (relabel_keys s t0 (forced cfg t0 qn) Hd Hin eq_refl eq_refl).
      now exists more.
Qed.

(** ** Who may do what *)

(** X12. Somebody who owns no team gets no reply and changes nothing with
    [/begin], [/answer], [/hint], [/status] or a location message. *)
Theorem unregistered_sender_is_ignored cfg uid w :
  owned_by uid (STORE w) = None ->
  begin cfg uid w = (w, inr tt)
  /\ (forall args, answer cfg uid args w = (w, inr tt))
  /\ hint cfg uid w = (w, inr tt)
  /\ status_cmd uid w = (w, inr tt)
  /\ (forall la lo now, on_location uid la lo now w = (w, inr tt)).
Proof.
  intro Ho. repeat split; intros;
    unfold begin, answer, hint, status_cmd, on_location, bind, _require_team, ret;
    now rewrite Ho.
Qed.

(** X13. The administrator commands of somebody who is not in [ADMIN_IDS]
    do nothing at all: no reply, no message to any team, no change; with an
    empty [ADMIN_IDS] that is everybody. *)
Theorem non_admin_is_ignored cfg uid args w :
  is_admin cfg uid = false ->
  broadcast cfg uid args w = (w, inr tt)
  /\ where_ cfg uid args w = (w, inr tt)
  /\ force cfg uid args w = (w, inr tt).
Proof.
  intro Ha. unfold broadcast, where_, force. rewrite Ha. repeat split.
Qed.

(** X14. What [force] refuses, for an administrator: with fewer than two
    arguments it replies with the usage line; with a second argument that
    [int] rejects it raises that error before it looks for the team; with an
    unknown team name it replies "team not found".  The store is the same
    in all three cases. *)
Theorem force_refusals cfg uid s out :
  is_admin cfg uid = true ->
  force cfg uid [] {| STORE := s; sent := out |}
  = ({| STORE := s; sent := out ++ [UsageForce] |}, inr tt)
  /\ (forall a,
        force cfg uid [a] {| STORE := s; sent := out |}
        = ({| STORE := s; sent := out ++ [UsageForce] |}, inr tt))
  /\ (forall name a1 more e,
        to_int cfg a1 = inl e ->
        force cfg uid (name :: a1 :: more) {| STORE := s; sent := out |}
        = ({| STORE := s; sent := out |}, inl e))
  /\ (forall name a1 more qn,
        to_int cfg a1 = inr qn -> get name s = None ->
        force cfg uid (name :: a1 :: more) {| STORE := s; sent := out |}
        = ({| STORE := s; sent := out ++ [TeamNotFound] |}, inr tt)).
Proof.
  intro Ha. unfold force, bind, lift. rewrite Ha. cbn [negb].
  repeat split.
  - intros name a1 more e Hi. now rewrite Hi.
  - intros name a1 more qn Hi Hg. rewrite Hi. cbn [STORE]. now rewrite Hg.
Qed.

(** X15. A wrong code that passes the location guard, sent with more than
    one attempt left, costs exactly one attempt: the reply tells the
    attempts that remain, and index, score, hints, history and location stay
    as they were.  A code is wrong when its upper-cased, stripped text
    differs from the upper-cased answer code, whatever [str.upper] does. *)
Theorem wrong_answer_costs_one_attempt cfg uid args s out team q :
  owned_by uid s = Some team ->
  get_q cfg (current_q team) = inr q ->
  out_of_range cfg team q = false ->
  args <> [] ->
  matches cfg q args = false ->
  1 < attempts_left team ->
  answer cfg uid args {| STORE := s; sent := out |}
  = ({| STORE := dict_set (missed team) s;
        sent := out ++ [Incorrect (attempts_left team - 1)] |}, inr tt)
  /\ missed team
     = {| team_name := team_name team;
          user_id := user_id team;
          current_q := current_q team;
          score := score team;
          attempts_left := attempts_left team - 1;
          hints_used_current_q := hints_used_current_q team;
          history := history team;
          last_location := last_location team |}.
Proof.
  intros Ho Hq Hr Ha Hm Hl. split; [|reflexivity].
  destruct args as [|a args]; [congruence|].
  rewrite (answer_run cfg uid a args s out team q Ho Hq), Hr.
  fold (matches cfg q (a :: args)). rewrite Hm.
  destruct (Z.leb_spec (attempts_left team - 1) 0); [lia | reflexivity].
Qed.

(** X16. A command sent without its argument is answered with the usage
    line and changes nothing: [/register] from anybody, [/answer] from a
    team owner (also after the last question, where an answer with a code
    raises), [/where] from an administrator. *)
Theorem missing_argument_gets_usage cfg uid s out :
  register cfg uid [] {| STORE := s; sent := out |}
  = ({| STORE := s; sent := out ++ [UsageRegister] |}, inr tt)
  /\ (forall team,
        owned_by uid s = Some team ->
        answer cfg uid [] {| STORE := s; sent := out |}
        = ({| STORE := s; sent := out ++ [UsageAnswer] |}, inr tt))
  /\ (is_admin cfg uid = true ->
      where_ cfg uid [] {| STORE := s; sent := out |}
      = ({| STORE := s; sent := out ++ [UsageWhere] |}, inr tt)).
Proof.
  split; [reflexivity|]. split.
  - intros team Ho. unfold answer, bind, _require_team. cbn [STORE sent].
    now rewrite Ho.
  - intro Ha. unfold where_. now rewrite Ha.
Qed.

(** X17. A location message of a team owner replaces the recorded location
    and nothing else, and of two messages in a row the later one is what
    the store holds. *)
Theorem location_is_overwritten cfg uid s team la lo now la' lo' now' :
  is_dict s = true ->
  owned_by uid s = Some team ->
  step cfg s (MsgLocation uid la lo now)
  = dict_set (located team {| lat := la; lon := lo; ts := now |}) s
  /\ located team {| lat := la; lon := lo; ts := now |}
     = {| team_name := team_name team;
          user_id := user_id team;
          current_q := current_q team;
          score := score team;
          attempts_left := attempts_left team;
          hints_used_current_q := hints_used_current_q team;
          history := history team;
          last_location := Some {| lat := la; lon := lo; ts := now |} |}
  /\ run cfg [MsgLocation uid la lo now; MsgLocation uid la' lo' now'] s
     = step cfg s (MsgLocation uid la' lo' now').
Proof.
  intros Hd Ho.
  assert (Hstep : forall s0 t0 a b c,
             owned_by uid s0 = Some t0 ->
             step cfg s0 (MsgLocation uid a b c)
             = dict_set (located t0 {| lat := a; lon := b; ts := c |}) s0).
  { intros s0 t0 a b c H. unfold step, dispatch. rewrite coroutine_fst.
    unfold on_location, bind, _require_team, upsert, reply_text. cbn [STORE sent].
    now rewrite H. }
  split; [now apply Hstep|]. split; [reflexivity|].
  cbn [run fold_left]. rewrite (Hstep s team la lo now Ho).
  destruct (owned_by_In _ _ _ Ho) as [Hin _].
  destruct (dict_set_in_place s team (located team {| lat := la; lon := lo; ts := now |})
              Hd Hin eq_refl eq_refl) as (_ & _ & Hown).
  rewrite (Hstep _ (located team {| lat := la; lon := lo; ts := now |}) la' lo' now'),
          (Hstep s team la' lo' now' Ho).
  - now apply dict_set_twice.
  - rewrite Hown, Ho. cbn [option_map]. now rewrite relabel_self.
Qed.

(** X18. After the last question [/begin] fails in [get_q] like [/answer],
    with nothing sent and nothing changed, while [/status] still reports
    the record; inside the catalog [/begin] sends the current question with
    the attempts left and changes nothing. *)
Theorem begin_and_status cfg uid s out team :
  owned_by uid s = Some team ->
  status_cmd uid {| STORE := s; sent := out |}
  = ({| STORE := s; sent := out ++ [Status team] |}, inr tt)
  /\ (forall q,
        get_q cfg (current_q team) = inr q ->
        begin cfg uid {| STORE := s; sent := out |}
        = ({| STORE := s; sent := out ++ [QuestionPrompt q (attempts_left team)] |},
           inr tt))
  /\ (numbered cfg = true -> Py.len (QUESTIONS cfg) < current_q team ->
      begin cfg uid {| STORE := s; sent := out |}
      = ({| STORE := s; sent := out |}, inl Py.StopIteration)).
Proof.
  intro Ho. split; [|split].
  - unfold status_cmd, bind, _require_team, reply_text. cbn [STORE sent].
    now rewrite Ho.
  - intros q Hq. now rewrite begin_run, Ho, Hq.
  - intros Hn Hi.
    now rewrite begin_run, Ho, (get_q_out_of_range cfg (current_q team) Hn) by auto.
Qed.

(** ** The ranking keeps ties in store order *)

Lemma tied_spec a b :
  tied a b = true <-> (score a == score b)%Q /\ current_q a = current_q b.
Proof.
  unfold tied. now rewrite andb_true_iff, Qeq_bool_iff, Z.eqb_eq.
Qed.

Lemma insert_filter_out (p : TeamState -> bool) t l :
  p t = false -> filter p (insert t l) = filter p l.
Proof.
  intro Hp. induction l as [|x r IH]; cbn [insert filter].
  - now rewrite Hp.
  - destruct (key_lt x t); cbn [filter]; [now rewrite IH | now rewrite Hp].
Qed.

Lemma insert_filter_in a t l :
  tied a t = true -> filter (tied a) (insert t l) = t :: filter (tied a) l.
Proof.
  intro Ht. induction l as [|x r IH]; cbn [insert filter].
  - now rewrite Ht.
  - destruct (key_lt x t) eqn:E; cbn [filter]; [|now rewrite Ht].
    destruct (tied a x) eqn:Ex; [|exact IH].
    exfalso. apply tied_spec in Ht, Ex. apply key_lt_spec in E.
    destruct Ht as [Hs Hq], Ex as [Hs' Hq'], E as [E|[E1 E2]]; [lra | lia].
Qed.

Lemma insert_ranked t l :
  Forall (ranks_no_later t) l -> insert t l = t :: l.
Proof.
  intro H. destruct l as [|x r]; [reflexivity|]. cbn [insert].
  inversion H as [|? ? Hx _]; subst. apply key_lt_false in Hx. now rewrite Hx.
Qed.

Lemma sorted_ranked l : StronglySorted ranks_no_later l -> sorted l = l.
Proof.
  induction l as [|t r IH]; intro H; [reflexivity|].
  inversion H as [|? ? Hr Ht]; subst. cbn [sorted]. rewrite (IH Hr).
  now apply insert_ranked.
Qed.

(** X19. The ranking is stable: the records that share a sort key (equal
    score and equal index) appear in the ranking in the order in which the
    store holds them; a list that is already ranked is returned as it is,
    so ranking twice is ranking once. *)
Theorem ranking_is_stable l :
  (forall a, filter (tied a) (sorted l) = filter (tied a) l)
  /\ (StronglySorted ranks_no_later l -> sorted l = l)
  /\ sorted (sorted l) = sorted l.
Proof.
  split; [|split].
  - intro a. induction l as [|t r IH]; [reflexivity|]. cbn [sorted filter].
    destruct (tied a t) eqn:E.
    + now rewrite (insert_filter_in a t _ E), IH.
    + now rewrite (insert_filter_out (tied a) t _ E), IH.
  - apply sorted_ranked.
  - apply sorted_ranked, sorted_sorted.
Qed.

(** ** The store as a map *)

Lemma names_dict_set t s :
  names (dict_set t s)
  = match get (team_name t) s with
    | Some _ => names s
    | None => (names s ++ [team_name t])%list
    end.
Proof.
  unfold names, get. induction s as [|x r IH]; cbn [dict_set find map app].
  - reflexivity.
  - destruct (String.eqb_spec (team_name x) (team_name t)) as [E|E]; cbn [map].
    + now rewrite E.
    + rewrite IH. now destruct (find _ r).
Qed.

(** X20. [upsert] followed by [get]: the record is found under its name,
    every other name finds what it found before, an existing name keeps its
    place in the order of the store and a new one goes last, distinct names
    stay distinct, and writing the same record twice is writing it once. *)
Theorem upsert_then_get t s :
  get (team_name t) (dict_set t s) = Some t
  /\ (forall n, n <> team_name t -> get n (dict_set t s) = get n s)
  /\ names (dict_set t s)
     = match get (team_name t) s with
       | Some _ => names s
       | None => (names s ++ [team_name t])%list
       end
  /\ (is_dict s = true -> is_dict (dict_set t s) = true)
  /\ dict_set t (dict_set t s) = dict_set t s.
Proof.
  split; [apply get_dict_set_same|]. split.
  - intros n Hn. apply get_dict_set_other. congruence.
  - split; [apply names_dict_set|]. split; [|now apply dict_set_twice].
    intro Hd. unfold is_dict. rewrite names_dict_set.
    destruct (get (team_name t) s) eqn:E; [exact Hd|].
    destruct (dict_set_new s t Hd E) as [H _].
    unfold is_dict, names in H. rewrite map_app in H. exact H.
Qed.

(** ** Several commands in a row *)

Lemma dict_set_self s t : is_dict s = true -> In t s -> dict_set t s = s.
Proof.
  intros Hd Hin. rewrite (dict_set_relabel s t t Hd Hin eq_refl).
  rewrite <- (map_id s) at 2. apply map_ext_in. intros x Hx. unfold relabel.
  destruct (String.eqb_spec (team_name x) (team_name t)) as [E|E]; auto.
  symmetry. now apply (dict_unique s).
Qed.

Lemma owned_after_set s uid t t' :
  is_dict s = true -> owned_by uid s = Some t ->
  team_name t' = team_name t -> user_id t' = user_id t ->
  is_dict (dict_set t' s) = true /\ owned_by uid (dict_set t' s) = Some t'.
Proof.
  intros Hd Ho En Eu. destruct (owned_by_In _ _ _ Ho) as [Hin _].
  destruct (dict_set_in_place s t t' Hd Hin En Eu) as (Hd' & _ & Hown).
  split; [exact Hd'|]. rewrite Hown, Ho. cbn [option_map]. now rewrite relabel_self.
Qed.

Lemma iter_solved cfg n t :
  team_name (Nat.iter n (solved cfg) t) = team_name t
  /\ user_id (Nat.iter n (solved cfg) t) = user_id t
  /\ last_location (Nat.iter n (solved cfg) t) = last_location t
  /\ current_q (Nat.iter n (solved cfg) t) = current_q t + Z.of_nat n
  /\ Py.len (history (Nat.iter n (solved cfg) t)) = Py.len (history t) + Z.of_nat n.
Proof.
  induction n as [|n (H1 & H2 & H3 & H4 & H5)].
  - cbn [Nat.iter nat_rect]. repeat split; lia.
  - rewrite Nat.iter_succ.
    cbn [solved team_name user_id last_location current_q history].
    rewrite len_app. change (Py.len [_]) with 1. repeat split; auto; lia.
Qed.

Lemma iter_solved_score cfg n t :
  score (Nat.iter (S n) (solved cfg) t)
  = Nat.iter n (fun x => fadd cfg x (points_for cfg 0))
      (fadd cfg (score t) (points_for cfg (hints_used_current_q t))).
Proof.
  induction n as [|n IH]; [reflexivity|].
  rewrite Nat.iter_succ. cbn [solved score]. rewrite IH.
  replace (hints_used_current_q (Nat.iter (S n) (solved cfg) t)) with 0
    by (rewrite Nat.iter_succ; reflexivity).
  reflexivity.
Qed.

(** X21. A team without a recorded location that gives the right code for
    its current question and for each following one moves on by one
    question per answer: after [n] such answers the index and the history
    length are up by [n], and the score is the old score to which the
    handler's addition has added the award of the first answer and then,
    once for each later answer, the award for no hint (their questions were
    answered without a hint). *)
Theorem right_answers_in_a_row cfg uid argss :
  forall s team,
    is_dict s = true ->
    owned_by uid s = Some team ->
    last_location team = None ->
    (forall k, (k < List.length argss)%nat ->
               exists q, get_q cfg (current_q team + Z.of_nat k) = inr q
                         /\ nth k argss [] <> []
                         /\ matches cfg q (nth k argss []) = true) ->
    run cfg (map (CmdAnswer uid) argss) s
    = dict_set (Nat.iter (List.length argss) (solved cfg) team) s
    /\ current_q (Nat.iter (List.length argss) (solved cfg) team)
       = current_q team + Py.len argss
    /\ Py.len (history (Nat.iter (List.length argss) (solved cfg) team))
       = Py.len (history team) + Py.len argss
    /\ (argss <> [] ->
        score (Nat.iter (List.length argss) (solved cfg) team)
        = Nat.iter (List.length argss - 1)
            (fun x => fadd cfg x (points_for cfg 0))
            (fadd cfg (score team) (points_for cfg (hints_used_current_q team)))).
Proof.
  induction argss as [|args rest IH]; intros s team Hd Ho Hl Hall.
  - cbn [map run fold_left List.length Nat.iter nat_rect].
    change (Py.len (@nil (list string))) with 0.
    rewrite (dict_set_self s team Hd (proj1 (owned_by_In _ _ _ Ho))).
    repeat split; try lia. congruence.
  - destruct (iter_solved cfg (List.length (args :: rest)) team)
      as (_ & _ & _ & Hq & Hh).
    split; [|split; [exact Hq|split; [exact Hh|]]].
    + destruct (Hall 0%nat) as (q & Hq0 & Hne & Hm); [cbn [List.length]; lia|].
      cbn [nth] in Hne, Hm. rewrite Z.add_0_r in Hq0.
      destruct args as [|a args]; [congruence|].
      cbn [map]. rewrite run_cons, (answer_step cfg uid a args s team q Ho Hq0), Hm.
      unfold out_of_range. rewrite Hl.
      destruct (owned_after_set s uid team (solved cfg team) Hd Ho eq_refl eq_refl)
        as [Hd' Ho'].
      destruct (IH (dict_set (solved cfg team) s) (solved cfg team) Hd' Ho' Hl)
        as (Hrun & _).
      * intros k Hk. destruct (Hall (S k)) as (q' & Hq' & Hne' & Hm');
          [cbn [List.length]; lia|].
        exists q'. cbn [nth] in Hne', Hm'. repeat split; auto.
        cbn [solved current_q]. rewrite <- Hq'. f_equal. lia.
      * rewrite Hrun. cbn [List.length]. rewrite Nat.iter_succ_r.
        apply dict_set_twice.
        now destruct (iter_solved cfg (List.length rest) (solved cfg team)) as (-> & _).
    + intros _. cbn [List.length]. rewrite iter_solved_score.
      now rewrite Nat.sub_succ, Nat.sub_0_r.
Qed.

Lemma iter_hinted n t :
  team_name (Nat.iter n hinted t) = team_name t
  /\ user_id (Nat.iter n hinted t) = user_id t
  /\ current_q (Nat.iter n hinted t) = current_q t
  /\ hints_used_current_q (Nat.iter n hinted t) = hints_used_current_q t + Z.of_nat n.
Proof.
  induction n as [|n (H1 & H2 & H3 & H4)].
  - cbn [Nat.iter nat_rect]. repeat split; lia.
  - rewrite Nat.iter_succ. cbn [hinted team_name user_id current_q hints_used_current_q].
    repeat split; auto; lia.
Qed.

Lemma play_cons cfg u us w :
  play cfg (u :: us) w = play cfg us (fst (dispatch cfg u w)).
Proof. reflexivity. Qed.

(** X22. Requests for hints in a row are served from the front of the list:
    a team that has taken [from] hints and asks [k] more times, with
    [from + k] hints at most on the question, receives the hints at
    positions [from], ..., [from + k - 1] numbered from [from + 1], and the
    count goes up by [k]; a request beyond the last hint is answered with
    "no more hints". *)
Theorem hints_are_served_in_order cfg uid q k :
  forall s out team from,
    is_dict s = true ->
    owned_by uid s = Some team ->
    get_q cfg (current_q team) = inr q ->
    hints_used_current_q team = Z.of_nat from ->
    (from + k <= List.length (hints q))%nat ->
    play cfg (repeat (CmdHint uid) k) {| STORE := s; sent := out |}
    = {| STORE := dict_set (Nat.iter k hinted team) s;
         sent := out ++ hint_replies q from k |}
    /\ hints_used_current_q (Nat.iter k hinted team) = Z.of_nat (from + k)
    /\ ((from + k = List.length (hints q))%nat ->
        play cfg (repeat (CmdHint uid) (S k)) {| STORE := s; sent := out |}
        = {| STORE := dict_set (Nat.iter k hinted team) s;
             sent := (out ++ hint_replies q from k) ++ [NoMoreHints] |}).
Proof.
  induction k as [|k IH]; intros s out team from Hd Ho Hq Hh Hk.
  - cbn [repeat play fold_left Nat.iter nat_rect]. unfold hint_replies. cbn [seq map].
    rewrite (dict_set_self s team Hd (proj1 (owned_by_In _ _ _ Ho))), app_nil_r.
    split; [reflexivity|]. split; [rewrite Hh; f_equal; lia|].
    intro E. unfold dispatch. rewrite coroutine_fst, (hint_run cfg uid s out team q Ho Hq).
    destruct (Z.leb_spec (Py.len (hints q)) (hints_used_current_q team));
      [reflexivity | unfold Py.len in *; lia].
  - assert (Hstep : fst (dispatch cfg (CmdHint uid) {| STORE := s; sent := out |})
                    = {| STORE := dict_set (hinted team) s;
                         sent := out ++ [HintText (Z.of_nat from + 1)
                                           (nth from (hints q) "")] |}).
    { unfold dispatch. rewrite coroutine_fst, (hint_run cfg uid s out team q Ho Hq).
      destruct (Z.leb_spec (Py.len (hints q)) (hints_used_current_q team));
        [unfold Py.len in *; lia|].
      destruct (index_in_range (hints q) (hints_used_current_q team))
        as (text & -> & Hn); [unfold Py.len in *; lia|].
      cbn [fst]. rewrite Hh in *. rewrite Nat2Z.id in Hn.
      now rewrite (nth_error_nth _ _ "" Hn). }
    destruct (owned_after_set s uid team (hinted team) Hd Ho eq_refl eq_refl)
      as [Hd' Ho'].
    destruct (IH (dict_set (hinted team) s)
                 (out ++ [HintText (Z.of_nat from + 1) (nth from (hints q) "")])%list
                 (hinted team) (S from) Hd' Ho' Hq)
      as (Hplay & Hcount & Hlast).
    { cbn [hinted hints_used_current_q]. lia. }
    { lia. }
    assert (Hset : dict_set (Nat.iter k hinted (hinted team)) (dict_set (hinted team) s)
                   = dict_set (Nat.iter (S k) hinted team) s).
    { rewrite Nat.iter_succ_r. apply dict_set_twice.
      now destruct (iter_hinted k (hinted team)) as (-> & _). }
    assert (Hrep : ((out ++ [HintText (Z.of_nat from + 1) (nth from (hints q) "")])
                      ++ hint_replies q (S from) k
                    = out ++ hint_replies q from (S k))%list).
    { unfold hint_replies. cbn [seq map]. now rewrite <- app_assoc. }
    split; [|split].
    + cbn [repeat]. now rewrite play_cons, Hstep, Hplay, Hset, Hrep.
    + destruct (iter_hinted (S k) team) as (_ & _ & _ & ->). lia.
    + intro E. change (repeat (CmdHint uid) (S (S k)))
        with (CmdHint uid :: repeat (CmdHint uid) (S k)).
      rewrite play_cons, Hstep, Hlast by lia. now rewrite Hset, Hrep.
Qed.

(** ** Registration followed by the first question *)

(** X23. Somebody without a team who registers a free name and then sends
    [/begin] is told that the team is registered and is given question 1
    with the whole budget of attempts; the store has the fresh record at
    its end. *)
Theorem register_then_begin cfg uid args s out q1 :
  args <> [] ->
  get (str_strip cfg (Py.join " " args)) s = None ->
  owned_by uid s = None ->
  get_q cfg 1 = inr q1 ->
  play cfg [CmdRegister uid args; CmdBegin uid] {| STORE := s; sent := out |}
  = {| STORE := (s ++ [new_team cfg (str_strip cfg (Py.join " " args)) uid])%list;
       sent := (out ++ [TeamRegistered (str_strip cfg (Py.join " " args))])
               ++ [QuestionPrompt q1 (ATTEMPTS_PER_Q cfg)] |}.
Proof.
  intros Ha Hfree Ho Hq. cbn [play fold_left]. unfold dispatch.
  rewrite !coroutine_fst.
  rewrite (register_free cfg uid args s out Ha Hfree). cbn [fst].
  rewrite begin_run.
  assert (Hown : owned_by uid (s ++ [new_team cfg (str_strip cfg (Py.join " " args)) uid])%list
                 = Some (new_team cfg (str_strip cfg (Py.join " " args)) uid)).
  { unfold owned_by in *. clear - Ho. induction s as [|x r IH]; cbn [app find].
    - cbn [new_team user_id]. now rewrite Z.eqb_refl.
    - cbn [find] in Ho. destruct (user_id x =? uid); [discriminate | now apply IH]. }
  rewrite Hown. cbn [new_team current_q attempts_left]. now rewrite Hq.
Qed.

(** ** When the location guard can reject *)

(** X24. The guard of [answer] rejects exactly when geofencing is switched
    on, the question has a geofence, the team has a recorded location and
    the distance computed for it exceeds the radius.  So with geofencing
    off nothing is ever rejected, and the placeholder questions, which have
    no geofence, never reject. *)
Theorem guard_rejects_exactly_when cfg team q :
  (out_of_range cfg team q = true
   <-> USE_GEOFENCE cfg = true
       /\ exists g loc,
            geofence q = Some g /\ last_location team = Some loc
            /\ (radius_m g < haversine_m cfg (lat loc) (lon loc) (g_lat g) (g_lon g))%Q)
  /\ (USE_GEOFENCE cfg = false -> out_of_range cfg team q = false)
  /\ (forall i, out_of_range cfg team (spot i) = false).
Proof.
  split; [|split].
  - unfold out_of_range, within_geofence.
    destruct (last_location team) as [loc|];
      [|split; [discriminate | intros (_ & g' & loc' & _ & H2 & _); discriminate]].
    destruct (USE_GEOFENCE cfg);
      [|destruct (geofence q); (split; [discriminate | intros (H & _); discriminate])].
    destruct (geofence q) as [g|];
      [|split; [discriminate | intros (_ & g' & loc' & H1 & _); discriminate]].
    split.
    + intro H. split; [reflexivity|]. exists g, loc.
      split; [reflexivity|]. split; [reflexivity|].
      apply negb_true_iff in H. apply Qnot_le_lt. intro Hle.
      apply Qle_bool_iff in Hle. congruence.
    + intros (_ & g' & loc' & H1 & H2 & Hlt).
      injection H1 as <-. injection H2 as <-.
      apply negb_true_iff.
      destruct (Qle_bool (haversine_m cfg (lat loc) (lon loc) (g_lat g) (g_lon g))
                         (radius_m g)) eqn:E; [|reflexivity].
      apply Qle_bool_iff in E. lra.
  - intro Hoff. unfold out_of_range, within_geofence. rewrite Hoff.
    now destruct (last_location team).
  - intro i. unfold out_of_range, within_geofence. cbn [spot geofence].
    destruct (last_location team), (USE_GEOFENCE cfg); reflexivity.
Qed.

(** ** Letter case of a submitted code *)

Lemma isspace_upper c : Py.isspace (Py.upper_ascii c) = Py.isspace c.
Proof. destruct c as [[] [] [] [] [] [] [] []]; reflexivity. Qed.

Lemma upper_app s s' : Py.upper (s ++ s') = (Py.upper s ++ Py.upper s')%string.
Proof. induction s as [|c r IH]; cbn [Py.upper append]; [reflexivity | now rewrite IH]. Qed.

Lemma upper_lstrip s : Py.upper (Py.lstrip s) = Py.lstrip (Py.upper s).
Proof.
  induction s as [|c r IH]; [reflexivity|]. cbn [Py.lstrip Py.upper].
  rewrite isspace_upper. destruct (Py.isspace c); [exact IH | reflexivity].
Qed.

Lemma upper_rstrip s : Py.upper (Py.rstrip s) = Py.rstrip (Py.upper s).
Proof.
  induction s as [|c r IH]; [reflexivity|]. cbn [Py.rstrip Py.upper].
  rewrite <- IH, isspace_upper.
  destruct (Py.rstrip r); cbn [Py.upper]; [now destruct (Py.isspace c) | reflexivity].
Qed.

Lemma string_length_app (s s' : string) :
  String.length (s ++ s') = (String.length s + String.length s')%nat.
Proof. induction s as [|c r IH]; cbn [append String.length]; [reflexivity | now rewrite IH]. Qed.

(** Any upper-casing that goes through concatenation and keeps the blank
    goes through [join]. *)
Lemma str_upper_join (up : string -> string) parts :
  (forall s s', up (s ++ s') = up s ++ up s')%string ->
  up " " = " " ->
  up (Py.join " " parts) = Py.join " " (map up parts).
Proof.
  intros Happ Hsp.
  assert (He : up "" = "").
  { pose proof (f_equal String.length (Happ "" "")) as H.
    cbn [append] in H. rewrite string_length_app in H.
    destruct (up ""); [reflexivity | cbn [String.length] in H; lia]. }
  induction parts as [|p rest IH]; [exact He|].
  destruct rest as [|p' rest]; [reflexivity|].
  change (Py.join " " (p :: p' :: rest)) with (p ++ " " ++ Py.join " " (p' :: rest))%string.
  change (Py.join " " (map up (p :: p' :: rest)))
    with (up p ++ " " ++ Py.join " " (map up (p' :: rest)))%string.
  now rewrite !Happ, Hsp, IH.
Qed.

Lemma upper_strip s : Py.upper (Py.strip s) = Py.strip (Py.upper s).
Proof. unfold Py.strip. now rewrite upper_rstrip, upper_lstrip. Qed.

(** X25. The judgement of a submission does not depend on letter case:
    two submissions whose words are equal once upper-cased are both right
    or both wrong for every question.  Upper-casing works character by
    character, keeps the blank and commutes with [strip]; the ASCII
    functions of [Py] are such a pair. *)
Theorem letter_case_does_not_matter cfg q args args' :
  (forall s s', str_upper cfg (s ++ s') = str_upper cfg s ++ str_upper cfg s')%string ->
  str_upper cfg " " = " " ->
  (forall s, str_upper cfg (str_strip cfg s) = str_strip cfg (str_upper cfg s)) ->
  map (str_upper cfg) args = map (str_upper cfg) args' ->
  matches cfg q args = matches cfg q args'.
Proof.
  intros Happ Hsp Hstrip H. unfold matches.
  now rewrite !Hstrip, !(str_upper_join _ _ Happ Hsp), H.
Qed.

(** ** Instances on the configuration of the source *)

Lemma get_q_by_number_witness :
  get_q default_config 7 = inr (spot 7)
  /\ get_q default_config 11 = inl Py.StopIteration.
Proof.
  destruct (get_q_by_number default_config 7 eq_refl) as (_ & _ & H7).
  destruct (get_q_by_number default_config 11 eq_refl) as (_ & H11 & _).
  split.
  - apply H7. vm_compute. split; [reflexivity | discriminate].
  - apply H11. right. reflexivity.
Defined.


Lemma attempts_stay_in_budget_witness :
  Forall (fun t =>
            1 <= attempts_left t <= 3
            /\ Forall (fun e => 1 <= h_attempts e <= 3) (history t))
    (run default_config
       [CmdRegister 7 ["Alpha"]; CmdAnswer 7 ["x"]; CmdAnswer 7 ["x"];
        CmdAnswer 7 ["x"]; CmdAnswer 7 ["x"]; CmdAnswer 7 ["code2"]] []).
Proof.
  apply (attempts_stay_in_budget default_config).
  - vm_compute. discriminate.
  - exists [CmdRegister 7 ["Alpha"]; CmdAnswer 7 ["x"]; CmdAnswer 7 ["x"];
            CmdAnswer 7 ["x"]; CmdAnswer 7 ["x"]; CmdAnswer 7 ["code2"]].
    reflexivity.
Defined.

Lemma hints_stay_in_range_witness :
  snd (hint default_config 7
         {| STORE := run default_config
                       [CmdRegister 7 ["Alpha"]; CmdHint 7; CmdHint 7; CmdHint 7] [];
            sent := [] |})
  <> inl Py.IndexError.
Proof.
  apply (hints_stay_in_range default_config).
  exists [CmdRegister 7 ["Alpha"]; CmdHint 7; CmdHint 7; CmdHint 7]. reflexivity.
Defined.

Lemma index_stays_in_catalog_witness :
  Forall (fun t => 1 <= current_q t <= Py.len (QUESTIONS default_config) + 1)
    finished_store.
Proof.
  apply (index_stays_in_catalog default_config).
  - reflexivity.
  - exists (CmdRegister 8 ["Omega"] :: repeat (CmdAnswer 8 ["x"]) 30).
    unfold finished_store. reflexivity.
Defined.

Lemma history_in_question_order_witness :
  Forall (fun t =>
            map h_q (history t) = numbers_after 0 (List.length (history t))
            /\ Py.len (history t) = current_q t - 1)
    (run default_config
       [CmdRegister 7 ["Alpha"]; CmdAnswer 7 ["merlion"]; CmdAnswer 7 ["x"];
        CmdAnswer 7 ["x"]; CmdAnswer 7 ["x"]; CmdAnswer 7 ["code3"]] []).
Proof.
  apply (history_in_question_order default_config).
  exists [CmdRegister 7 ["Alpha"]; CmdAnswer 7 ["merlion"]; CmdAnswer 7 ["x"];
          CmdAnswer 7 ["x"]; CmdAnswer 7 ["x"]; CmdAnswer 7 ["code3"]].
  split; reflexivity.
Defined.


Lemma index_moves_one_step_witness :
  exists t',
    get "Alpha"
        (run default_config [CmdAnswer 7 ["merlion"]; CmdHint 7; CmdAnswer 7 ["x"]]
           [alpha])
    = Some t'
    /\ current_q alpha <= current_q t'
       <= current_q alpha
          + Py.len [CmdAnswer 7 ["merlion"]; CmdHint 7; CmdAnswer 7 ["x"]].
Proof.
  apply (index_moves_one_step default_config
           [CmdAnswer 7 ["merlion"]; CmdHint 7; CmdAnswer 7 ["x"]]
           [alpha] "Alpha" alpha).
  - reflexivity.
  - reflexivity.
  - reflexivity.
Defined.

Lemma only_the_senders_record_changes_witness :
  get "Beta" (step default_config [alpha; beta] (CmdAnswer 7 ["merlion"])) = Some beta.
Proof.
  apply (only_the_senders_record_changes default_config [alpha; beta]
           (CmdAnswer 7 ["merlion"]) "Beta" beta).
  - reflexivity.
  - reflexivity.
  - reflexivity.
  - vm_compute. discriminate.
Defined.

Lemma records_never_leave_witness :
  exists more,
    map (fun x => (team_name x, user_id x))
        (run fenced_config
           [CmdAnswer 9 ["x"]; CmdRegister 5 ["Gamma"]; CmdForce 900 ["Alpha"; "3"]]
           [alpha; beta])
    = (map (fun x => (team_name x, user_id x)) [alpha; beta] ++ more)%list.
Proof.
  apply (records_never_leave fenced_config
           [CmdAnswer 9 ["x"]; CmdRegister 5 ["Gamma"]; CmdForce 900 ["Alpha"; "3"]]
           [alpha; beta]).
  reflexivity.
Defined.

Lemma unregistered_sender_is_ignored_witness :
  hint default_config 5 {| STORE := [alpha]; sent := [] |}
  = ({| STORE := [alpha]; sent := [] |}, inr tt)
  /\ answer default_config 5 ["merlion"] {| STORE := [alpha]; sent := [] |}
     = ({| STORE := [alpha]; sent := [] |}, inr tt).
Proof.
  destruct (unregistered_sender_is_ignored default_config 5
              {| STORE := [alpha]; sent := [] |} eq_refl)
    as (_ & Ha & Hh & _).
  split; [exact Hh | exact (Ha ["merlion"])].
Defined.

Lemma non_admin_is_ignored_witness :
  force default_config 900 ["Alpha"; "5"] {| STORE := [alpha]; sent := [] |}
  = ({| STORE := [alpha]; sent := [] |}, inr tt).
Proof.
  apply (non_admin_is_ignored default_config 900 ["Alpha"; "5"]
           {| STORE := [alpha]; sent := [] |}).
  reflexivity.
Defined.

Lemma force_refusals_witness :
  force fenced_config 900 ["Red"; "Team"; "5"] {| STORE := [alpha]; sent := [] |}
  = ({| STORE := [alpha]; sent := [] |}, inl Py.ValueError)
  /\ force fenced_config 900 ["Zeta"; "5"] {| STORE := [alpha]; sent := [] |}
     = ({| STORE := [alpha]; sent := [] ++ [TeamNotFound] |}, inr tt).
Proof.
  destruct (force_refusals fenced_config 900 [alpha] [] eq_refl)
    as (_ & _ & Hbad & Hnone).
  split.
  - apply Hbad. reflexivity.
  - apply (Hnone "Zeta" "5" [] 5); reflexivity.
Defined.

Lemma wrong_answer_costs_one_attempt_witness :
  answer default_config 9 ["nope"] {| STORE := [beta]; sent := [] |}
  = ({| STORE := dict_set (missed beta) [beta];
        sent := [] ++ [Incorrect (attempts_left beta - 1)] |}, inr tt).
Proof.
  apply (wrong_answer_costs_one_attempt default_config 9 ["nope"] [beta] [] beta
           old_supreme_court).
  - reflexivity.
  - reflexivity.
  - reflexivity.
  - discriminate.
  - reflexivity.
  - reflexivity.
Defined.

Lemma missing_argument_gets_usage_witness :
  answer default_config 8 [] {| STORE := finished_store; sent := [] |}
  = ({| STORE := finished_store; sent := [] ++ [UsageAnswer] |}, inr tt).
Proof.
  apply (missing_argument_gets_usage default_config 8 finished_store [] ) with omega.
  vm_compute. reflexivity.
Defined.

Lemma location_is_overwritten_witness :
  run default_config [MsgLocation 7 1 2 3; MsgLocation 7 4 5 6] [alpha]
  = step default_config [alpha] (MsgLocation 7 4 5 6).
Proof.
  apply (location_is_overwritten default_config 7 [alpha] alpha 1 2 3 4 5 6).
  - reflexivity.
  - reflexivity.
Defined.

Lemma begin_and_status_witness :
  status_cmd 8 {| STORE := finished_store; sent := [] |}
  = ({| STORE := finished_store; sent := [] ++ [Status omega] |}, inr tt)
  /\ begin default_config 8 {| STORE := finished_store; sent := [] |}
     = ({| STORE := finished_store; sent := [] |}, inl Py.StopIteration).
Proof.
  destruct (begin_and_status default_config 8 finished_store [] omega
              ltac:(vm_compute; reflexivity)) as (Hs & _ & Hb).
  split; [exact Hs|]. apply Hb.
  - reflexivity.
  - vm_compute. reflexivity.
Defined.

Lemma right_answers_in_a_row_witness :
  run default_config (map (CmdAnswer 7) [["merlion"]; ["Code2"]; ["code3"]])
    [new_team default_config "Alpha" 7]
  = dict_set (Nat.iter 3 (solved default_config) (new_team default_config "Alpha" 7))
      [new_team default_config "Alpha" 7].
Proof.
  apply (right_answers_in_a_row default_config 7
           [["merlion"]; ["Code2"]; ["code3"]]
           [new_team default_config "Alpha" 7] (new_team default_config "Alpha" 7)).
  - reflexivity.
  - reflexivity.
  - reflexivity.
  - intros k Hk. destruct k as [|[|[|k]]].
    + exists old_supreme_court. split; [reflexivity|]. split; [discriminate | reflexivity].
    + exists (spot 2). split; [reflexivity|]. split; [discriminate | reflexivity].
    + exists (spot 3). split; [reflexivity|]. split; [discriminate | reflexivity].
    + cbn [List.length] in Hk. lia.
Defined.

Lemma hints_are_served_in_order_witness :
  play default_config (repeat (CmdHint 7) 3)
    {| STORE := [new_team default_config "Alpha" 7]; sent := [] |}
  = {| STORE := dict_set (Nat.iter 2 hinted (new_team default_config "Alpha" 7))
                  [new_team default_config "Alpha" 7];
       sent := ([] ++ hint_replies old_supreme_court 0 2) ++ [NoMoreHints] |}.
Proof.
  apply (hints_are_served_in_order default_config 7 old_supreme_court 2
           [new_team default_config "Alpha" 7] []
           (new_team default_config "Alpha" 7) 0).
  - reflexivity.
  - reflexivity.
  - reflexivity.
  - reflexivity.
  - cbn. lia.
  - reflexivity.
Defined.

Lemma register_then_begin_witness :
  play default_config [CmdRegister 7 ["Red"; "Team"]; CmdBegin 7]
    {| STORE := [beta]; sent := [] |}
  = {| STORE := ([beta] ++ [new_team default_config "Red Team" 7])%list;
       sent := ([] ++ [TeamRegistered "Red Team"])
               ++ [QuestionPrompt old_supreme_court 3] |}.
Proof.
  apply (register_then_begin default_config 7 ["Red"; "Team"] [beta] []
           old_supreme_court).
  - discriminate.
  - reflexivity.
  - reflexivity.
  - reflexivity.
Defined.

Lemma letter_case_does_not_matter_witness :
  matches default_config old_supreme_court ["MerLion"]
  = matches default_config old_supreme_court ["merlion"].
Proof.
  apply (letter_case_does_not_matter default_config old_supreme_court
           ["MerLion"] ["merlion"]).
  - exact upper_app.
  - reflexivity.
  - exact upper_strip.
  - reflexivity.
Defined.
